(** * orchestra: players, stages and their life cycle

    A shallow embedding of package [orchestra] (player.go and stage.go).

    - A Go [error] value is an [option error]: [None] is [nil].
    - A [Player] is an interface value: the record of its three methods.
      A method is a transformer of the state [W] of the world outside the
      stage (whatever the players own).  A method call is atomic, returns,
      and does not panic.
    - [range] over a Go map visits the entries in an unspecified order: every
      function that ranges over [s.players] takes the order of the visit as
      an argument, a permutation of the entries of the map.
    - [Play] and [Clean] start goroutines.  They are small-step machines whose
      steps are chosen by a scheduler; a run is a list of scheduler choices.
      A goroutine blocks where Go blocks it ([wg.Wait()] on a counter that is
      not 0, a send on a full channel) and panics where Go panics (a send on
      a closed channel, a counter that would go below 0); a goroutine that
      has panicked takes no further step.
    - What a stage does to its players is observed by spies: players that
      append every call made on them to a log kept in the world.

    What is proved is which calls a stage makes on its players and how
    often, what it returns, and that its own synchronisation neither panics
    nor blocks; nothing is said of players whose calls overlap in time or do
    not return. *)

From stdpp Require Import base gmap list strings.
From Stdlib Require Import ZArith Lia.

Open Scope Z_scope.
Open Scope nat_scope.

(** ** Errors *)

(** The error values of the package, and those of the players. *)
#[warnings="-register-all"] Inductive error : Type :=
  | ErrOther (msg : string)                          (* an error of a player's own *)
  | ErrSetup (Player : string) (Err : error)         (* type ErrSetup struct *)
  | ErrPlay (Players : gmap string error).           (* type ErrPlay struct *)

(** [context.Context] is opaque to the package: a stage hands the value it
    was given to every player.  A context is represented by an identifier. *)
Definition Context : Type := nat.

(** ** Players *)

(** [type Player interface { Play(context.Context) error; Setup() error; Clean() }] *)
Record Player (W : Type) : Type := mkPlayer {
  p_Play : Context → W → option error * W;
  p_Setup : W → option error * W;
  p_Clean : W → W
}.
Arguments mkPlayer {W} _ _ _.
Arguments p_Play {W} _ _ _.
Arguments p_Setup {W} _ _.
Arguments p_Clean {W} _ _.

(** [type SimplePlayer func(context.Context) error] *)
Definition SimplePlayer (W : Type) : Type := Context → W → option error * W.

(** [func (sp SimplePlayer) Setup() error { return nil }] *)
Definition SimplePlayer_Setup {W} (sp : SimplePlayer W) (w : W) : option error * W :=
  (None, w).

(** [func (sp SimplePlayer) Clean() {}] *)
Definition SimplePlayer_Clean {W} (sp : SimplePlayer W) (w : W) : W := w.

(** [func (sp SimplePlayer) Play(ctx context.Context) error { return sp(ctx) }] *)
Definition SimplePlayer_Play {W} (sp : SimplePlayer W) (ctx : Context) (w : W)
  : option error * W := sp ctx w.

(** A [SimplePlayer] used where a [Player] is required. *)
Definition SimplePlayer_as_Player {W} (sp : SimplePlayer W) : Player W :=
  mkPlayer (SimplePlayer_Play sp) (SimplePlayer_Setup sp) (SimplePlayer_Clean sp).

(** ** Stages *)

(** [type Stage struct { players map[string]Player; beenSetup bool }] *)
Record Stage (W : Type) : Type := mkStage {
  players : gmap string (Player W);
  beenSetup : bool
}.
Arguments mkStage {W} _ _.
Arguments players {W} _.
Arguments beenSetup {W} _.

(** [func NewStage() *Stage] *)
Definition NewStage {W} : Stage W := mkStage ∅ false.

(** [func (s *Stage) Add(name string, p Player)] *)
Definition Add {W} (name : string) (p : Player W) (s : Stage W) : Stage W :=
  mkStage (<[name := p]> (players s)) (beenSetup s).

(** The orders in which [range s.players] may visit the entries. *)
Definition ranges {W} (s : Stage W) (order : list (string * Player W)) : Prop :=
  order ≡ₚ map_to_list (players s).

(** *** Setup *)

(** The local variables of [Setup] when its first loop is left. *)
Record setup_vars (W : Type) : Type := mkSetupVars {
  sv_err : option error;
  sv_faulty : string;
  sv_good : list (Player W)
}.
Arguments mkSetupVars {W} _ _ _.
Arguments sv_err {W} _.
Arguments sv_faulty {W} _.
Arguments sv_good {W} _.

(** [for name, it := range s.players { err = it.Setup(); if err != nil
    { faulty = name; break }; good = append(good, it) }] *)
Fixpoint setup_loop {W} (todo : list (string * Player W)) (v : setup_vars W) (w : W)
  : setup_vars W * W :=
  match todo with
  | [] => (v, w)
  | (name, it) :: rest =>
      let '(err, w') := p_Setup it w in
      match err with
      | Some _ => (mkSetupVars err name (sv_good v), w')
      | None => setup_loop rest (mkSetupVars err (sv_faulty v) (sv_good v ++ [it])) w'
      end
  end.

(** [for _, it := range good { it.Clean() }] *)
Definition clean_good {W} (good : list (Player W)) (w : W) : W :=
  foldl (λ w it, p_Clean it w) w good.

(** [func (s *Stage) Setup() error]: the error returned, the stage and the
    world afterwards. *)
Definition Setup {W} (order : list (string * Player W)) (s : Stage W) (w : W)
  : option error * Stage W * W :=
  let '(v, w1) := setup_loop order (mkSetupVars None "" []) w in
  match sv_err v with
  | Some e => (Some (ErrSetup (sv_faulty v) e), s, clean_good (sv_good v) w1)
  | None => (None, mkStage (players s) true, w1)
  end.

(** *** Scheduling *)

(** A choice of the scheduler: the goroutine that called the method of the
    stage takes its next step, or the [i]-th goroutine it started does. *)
Inductive action : Type :=
  | AMain
  | ATask (i : nat).

(** How a call that may panic ends. *)
Inductive outcome : Type :=
  | Returned (err : option error)
  | Panicked.

(** *** Play *)

(** Where a goroutine started by [Play] is in
    [func(n string, player Player) { defer wg.Done(); e := player.Play(ctx);
    if e != nil { echan <- ... } }]. *)
Inductive play_task (W : Type) : Type :=
  | PtStart (n : string) (player : Player W)   (* before [player.Play(ctx)] *)
  | PtGot (n : string) (e : option error)      (* at [if e != nil] *)
  | PtDefer (n : string) (e : option error)    (* at the deferred [wg.Done()] *)
  | PtDone (n : string) (e : option error)     (* ended *)
  | PtPanic (n : string).                      (* panicked: send on a closed
                                                  channel, negative counter *)
Arguments PtStart {W} _ _.
Arguments PtGot {W} _ _.
Arguments PtDefer {W} _ _.
Arguments PtDone {W} _ _.
Arguments PtPanic {W} _.

(** Where the goroutine that called [Play] is. *)
Inductive play_main (W : Type) : Type :=
  | PmEntry                                    (* at [if !s.beenSetup] *)
  | PmLoop (todo : list (string * Player W))   (* in [for name, it := range s.players] *)
  | PmWait                                     (* at [wg.Wait()] *)
  | PmClose                                    (* at [close(echan)] *)
  | PmReturned (err : option error)
  | PmPanicked.
Arguments PmEntry {W}.
Arguments PmLoop {W} _.
Arguments PmWait {W}.
Arguments PmClose {W}.
Arguments PmReturned {W} _.
Arguments PmPanicked {W}.

(** The state of a call of [Play]: its goroutines, [wg], [echan] (its
    capacity, the values it buffers in order, whether it is closed) and the
    world. *)
Record play_state (W : Type) : Type := mkPlayState {
  ps_main : play_main W;
  ps_tasks : list (play_task W);
  ps_wg : Z;
  ps_cap : nat;
  ps_echan : list (string * error);
  ps_closed : bool;
  ps_world : W
}.
Arguments mkPlayState {W} _ _ _ _ _ _ _.
Arguments ps_main {W} _.
Arguments ps_tasks {W} _.
Arguments ps_wg {W} _.
Arguments ps_cap {W} _.
Arguments ps_echan {W} _.
Arguments ps_closed {W} _.
Arguments ps_world {W} _.

Definition play_init {W} (w : W) : play_state W :=
  mkPlayState PmEntry [] 0%Z 0 [] false w.

(** [for e := range echan { if err == nil { err = &ErrPlay{Players:
    make(map[string]error)} }; err.Players[e.Name] = e.Err }], with
    [err : *ErrPlay]. *)
Fixpoint drain (buf : list (string * error)) (err : option (gmap string error))
  : option (gmap string error) :=
  match buf with
  | [] => err
  | (Name, Err) :: rest =>
      let Players := match err with None => ∅ | Some m => m end in
      drain rest (Some (<[Name := Err]> Players))
  end.

(** [if err == nil { return nil }; return err] *)
Definition play_return (err : option (gmap string error)) : option error :=
  match err with
  | None => None
  | Some m => Some (ErrPlay m)
  end.

(** One step of a call [s.Play(ctx)] whose [range] visits [order]; [None]
    when the goroutine chosen is blocked, has ended or does not exist.  The
    first step of the caller is the test of [s.beenSetup] and, past it,
    [wg.Add(len(s.players))] on a new [wg] and
    [make(chan ..., len(s.players))]; its last step is [close(echan)], the
    second loop and the return. *)
Definition play_step {W} (s : Stage W) (order : list (string * Player W))
    (ctx : Context) (a : action) (c : play_state W) : option (play_state W) :=
  let '(mkPlayState main tasks wg cap echan closed w) := c in
  match a with
  | AMain =>
      match main with
      | PmEntry =>
          if beenSetup s
          then Some (mkPlayState (PmLoop order) tasks
                       (Z.of_nat (size (players s))) (size (players s)) [] false w)
          else Some (mkPlayState PmPanicked tasks wg cap echan closed w)
      | PmLoop [] => Some (mkPlayState PmWait tasks wg cap echan closed w)
      | PmLoop ((name, it) :: rest) =>
          Some (mkPlayState (PmLoop rest) (tasks ++ [PtStart name it])
                  wg cap echan closed w)
      | PmWait =>
          if decide (wg = 0%Z)
          then Some (mkPlayState PmClose tasks wg cap echan closed w)
          else None
      | PmClose =>
          Some (mkPlayState (PmReturned (play_return (drain echan None)))
                  tasks wg cap echan true w)
      | PmReturned _ | PmPanicked => None
      end
  | ATask i =>
      match tasks !! i with
      | Some (PtStart n player) =>
          let '(e, w') := p_Play player ctx w in
          Some (mkPlayState main (<[i := PtGot n e]> tasks) wg cap echan closed w')
      | Some (PtGot n None) =>
          Some (mkPlayState main (<[i := PtDefer n None]> tasks) wg cap echan closed w)
      | Some (PtGot n (Some e)) =>
          if closed
          then Some (mkPlayState main (<[i := PtPanic n]> tasks) wg cap echan closed w)
          else if decide (length echan < cap)
          then Some (mkPlayState main (<[i := PtDefer n (Some e)]> tasks) wg cap
                       (echan ++ [(n, e)]) closed w)
          else None
      | Some (PtDefer n e) =>
          if decide (wg - 1 < 0)%Z
          then Some (mkPlayState main (<[i := PtPanic n]> tasks) wg cap echan closed w)
          else Some (mkPlayState main (<[i := PtDone n e]> tasks) (wg - 1)%Z cap
                       echan closed w)
      | Some (PtDone _ _) | Some (PtPanic _) | None => None
      end
  end.

(** The steps chosen by [sched], one after the other. *)
Fixpoint play_run {W} (s : Stage W) (order : list (string * Player W))
    (ctx : Context) (sched : list action) (c : play_state W)
  : option (play_state W) :=
  match sched with
  | [] => Some c
  | a :: rest =>
      match play_step s order ctx a c with
      | Some c' => play_run s order ctx rest c'
      | None => None
      end
  end.

Definition play_outcome {W} (c : play_state W) : option outcome :=
  match ps_main c with
  | PmReturned err => Some (Returned err)
  | PmPanicked => Some Panicked
  | _ => None
  end.

(** [func (s *Stage) Play(ctx context.Context) error] under the schedule
    [sched]: how the call ends and the world then; [None] when [sched] is not
    a complete run of the call. *)
Definition Play {W} (order : list (string * Player W)) (sched : list action)
    (s : Stage W) (ctx : Context) (w : W) : option (outcome * W) :=
  match play_run s order ctx sched (play_init w) with
  | Some c =>
      match play_outcome c with
      | Some o => Some (o, ps_world c)
      | None => None
      end
  | None => None
  end.

(** *** Clean *)

(** Where a goroutine started by [Clean] is in
    [func(player Player) { defer wg.Done(); player.Clean() }]. *)
Inductive clean_task (W : Type) : Type :=
  | CtStart (player : Player W)   (* before [player.Clean()] *)
  | CtDefer                       (* at the deferred [wg.Done()] *)
  | CtDone                        (* ended *)
  | CtPanic.                      (* panicked: negative counter *)
Arguments CtStart {W} _.
Arguments CtDefer {W}.
Arguments CtDone {W}.
Arguments CtPanic {W}.

(** Where the goroutine that called [Clean] is. *)
Inductive clean_main (W : Type) : Type :=
  | CmEntry                                    (* at [wg.Add(len(s.players))] *)
  | CmLoop (todo : list (string * Player W))   (* in [for _, it := range s.players] *)
  | CmWait                                     (* at [wg.Wait()] *)
  | CmReturned.
Arguments CmEntry {W}.
Arguments CmLoop {W} _.
Arguments CmWait {W}.
Arguments CmReturned {W}.

Record clean_state (W : Type) : Type := mkCleanState {
  cs_main : clean_main W;
  cs_tasks : list (clean_task W);
  cs_wg : Z;
  cs_world : W
}.
Arguments mkCleanState {W} _ _ _ _.
Arguments cs_main {W} _.
Arguments cs_tasks {W} _.
Arguments cs_wg {W} _.
Arguments cs_world {W} _.

Definition clean_init {W} (w : W) : clean_state W :=
  mkCleanState CmEntry [] 0%Z w.

(** One step of a call [s.Clean()] whose [range] visits [order]. *)
Definition clean_step {W} (s : Stage W) (order : list (string * Player W))
    (a : action) (c : clean_state W) : option (clean_state W) :=
  let '(mkCleanState main tasks wg w) := c in
  match a with
  | AMain =>
      match main with
      | CmEntry =>
          Some (mkCleanState (CmLoop order) tasks
                  (wg + Z.of_nat (size (players s)))%Z w)
      | CmLoop [] => Some (mkCleanState CmWait tasks wg w)
      | CmLoop ((_, it) :: rest) =>
          Some (mkCleanState (CmLoop rest) (tasks ++ [CtStart it]) wg w)
      | CmWait =>
          if decide (wg = 0%Z)
          then Some (mkCleanState CmReturned tasks wg w)
          else None
      | CmReturned => None
      end
  | ATask i =>
      match tasks !! i with
      | Some (CtStart player) =>
          Some (mkCleanState main (<[i := CtDefer]> tasks) wg (p_Clean player w))
      | Some CtDefer =>
          if decide (wg - 1 < 0)%Z
          then Some (mkCleanState main (<[i := CtPanic]> tasks) wg w)
          else Some (mkCleanState main (<[i := CtDone]> tasks) (wg - 1)%Z w)
      | Some CtDone | Some CtPanic | None => None
      end
  end.

Fixpoint clean_run {W} (s : Stage W) (order : list (string * Player W))
    (sched : list action) (c : clean_state W) : option (clean_state W) :=
  match sched with
  | [] => Some c
  | a :: rest =>
      match clean_step s order a c with
      | Some c' => clean_run s order rest c'
      | None => None
      end
  end.

(** [func (s *Stage) Clean()] under the schedule [sched]: the world when the
    call returns; [None] when [sched] is not a complete run of the call. *)
Definition Clean {W} (order : list (string * Player W)) (sched : list action)
    (s : Stage W) (w : W) : option W :=
  match clean_run s order sched (clean_init w) with
  | Some c =>
      match cs_main c with
      | CmReturned => Some (cs_world c)
      | _ => None
      end
  | None => None
  end.

(** ** The calls made on a stage *)

(** A call of a method of a stage, and what the caller gets back. *)
Inductive call (W : Type) : Type :=
  | CallAdd (name : string) (p : Player W)
  | CallSetup
  | CallPlay (ctx : Context)
  | CallClean.
Arguments CallAdd {W} _ _.
Arguments CallSetup {W}.
Arguments CallPlay {W} _.
Arguments CallClean {W}.

Inductive reply : Type :=
  | RUnit                         (* the method has no result *)
  | RErr (err : option error)     (* the method returned [err] *)
  | RPanic.                       (* the method panicked *)

(** [stage_call (s, w) c r (s', w')]: the call [c] on the stage [s] in the
    world [w] can end with [r], leaving the stage [s'] and the world [w']. *)
Inductive stage_call {W} : Stage W * W → call W → reply → Stage W * W → Prop :=
  | sc_Add s w name p :
      stage_call (s, w) (CallAdd name p) RUnit (Add name p s, w)
  | sc_Setup s w order err s' w' :
      ranges s order →
      Setup order s w = (err, s', w') →
      stage_call (s, w) CallSetup (RErr err) (s', w')
  | sc_Play s w order sched ctx err w' :
      ranges s order →
      Play order sched s ctx w = Some (Returned err, w') →
      stage_call (s, w) (CallPlay ctx) (RErr err) (s, w')
  | sc_Play_panic s w order sched ctx w' :
      ranges s order →
      Play order sched s ctx w = Some (Panicked, w') →
      stage_call (s, w) (CallPlay ctx) RPanic (s, w')
  | sc_Clean s w order sched w' :
      ranges s order →
      Clean order sched s w = Some w' →
      stage_call (s, w) CallClean RUnit (s, w').

(** [history x h y]: the calls of [h], made one after the other from [x],
    with the replies of [h], lead to [y]. *)
Inductive history {W} : Stage W * W → list (call W * reply) → Stage W * W → Prop :=
  | history_nil x : history x [] x
  | history_snoc x h y c r z :
      history x h y → stage_call y c r z → history x (h ++ [(c, r)]) z.

(** Some call of [Setup] in [h] returned [nil]. *)
Definition setup_succeeded {W} (h : list (call W * reply)) : Prop :=
  Exists (λ cr, match cr with (CallSetup, RErr None) => True | _ => False end) h.

(** ** Observing the calls made on the players *)

(** A method of the player registered as [n] was called (and what it
    returned). *)
Inductive Event : Type :=
  | EvSetup (n : string) (err : option error)
  | EvPlay (n : string) (ctx : Context) (err : option error)
  | EvClean (n : string).

(** [spy n p] behaves as [p] and appends every call made on it to a log. *)
Definition spy {W} (n : string) (p : Player W) : Player (W * list Event) :=
  mkPlayer
    (λ ctx wl, let '(e, w') := p_Play p ctx wl.1 in (e, (w', wl.2 ++ [EvPlay n ctx e])))
    (λ wl, let '(e, w') := p_Setup p wl.1 in (e, (w', wl.2 ++ [EvSetup n e])))
    (λ wl, (p_Clean p wl.1, wl.2 ++ [EvClean n])).

(** Every player of the stage logs its calls under the name it is
    registered as. *)
Definition spied {W} (s : Stage (W * list Event)) : Prop :=
  ∀ n p, players s !! n = Some p → ∃ p0, p = spy n p0.

(** The calls of [Setup] on the player [n] in a log: what each returned. *)
Definition setups (n : string) (l : list Event) : list (option error) :=
  omap (λ ev, match ev with
              | EvSetup m e => if decide (m = n) then Some e else None
              | _ => None
              end) l.

(** The calls of [Play] on the player [n]: the context and the result of each. *)
Definition plays (n : string) (l : list Event) : list (Context * option error) :=
  omap (λ ev, match ev with
              | EvPlay m c e => if decide (m = n) then Some (c, e) else None
              | _ => None
              end) l.

(** The calls of [Clean] on the player [n]. *)
Definition cleans (n : string) (l : list Event) : list unit :=
  omap (λ ev, match ev with
              | EvClean m => if decide (m = n) then Some () else None
              | _ => None
              end) l.

(** The calls of [Play] that returned an error, with the player's name. *)
Definition failed_plays (l : list Event) : list (string * error) :=
  omap (λ ev, match ev with
              | EvPlay n _ (Some e) => Some (n, e)
              | _ => None
              end) l.

(** The [Setup] of every player of [l], called in this order from the world
    [w], returns [nil]: the world afterwards. *)
Fixpoint setups_ok {W} (l : list (string * Player W)) (w : W) : option W :=
  match l with
  | [] => Some w
  | (_, it) :: rest =>
      match p_Setup it w with
      | (None, w') => setups_ok rest w'
      | (Some _, _) => None
      end
  end.

(** The entries of [l] are spies under their own names. *)
Definition spied_entries {W} (l : list (string * Player (W * list Event))) : Prop :=
  Forall (λ np, ∃ p0, np.2 = spy np.1 p0) l.

(** ** What holds while Play and Clean run *)

(** The name a goroutine of [Play] was started with. *)
Definition pt_name {W} (t : play_task W) : string :=
  match t with
  | PtStart n _ | PtGot n _ | PtDefer n _ | PtDone n _ | PtPanic n => n
  end.

(** 1 while the goroutine has not called [wg.Done()]. *)
Definition pt_pending {W} (t : play_task W) : nat :=
  match t with
  | PtDone _ _ => 0
  | _ => 1
  end.

(** What the goroutine has sent on [echan]. *)
Definition pt_sent {W} (t : play_task W) : option (string * error) :=
  match t with
  | PtDefer n (Some e) | PtDone n (Some e) => Some (n, e)
  | _ => None
  end.

(** The call of [Play] the goroutine has made. *)
Definition pt_played {W} (ctx : Context) (t : play_task W) : option Event :=
  match t with
  | PtGot n e | PtDefer n e | PtDone n e => Some (EvPlay n ctx e)
  | PtStart _ _ | PtPanic _ => None
  end.

(** The goroutine holds an entry of [order] and has not panicked. *)
Definition pt_sound {W} (order : list (string * Player W)) (t : play_task W) : Prop :=
  match t with
  | PtStart n p => (n, p) ∈ order
  | PtPanic _ => False
  | _ => True
  end.

(** The entries for which [Play] has yet to start a goroutine. *)
Definition pm_todo {W} (m : play_main W) : list (string * Player W) :=
  match m with
  | PmLoop todo => todo
  | _ => []
  end.

(** What holds of a state of [Play] once the test of [beenSetup] is passed. *)
Record play_inv {W} (order : list (string * Player W)) (c : play_state W) : Prop := {
  pi_main : ps_main c ≠ PmEntry ∧ ps_main c ≠ PmPanicked;
  pi_order : ∃ pre, order = pre ++ pm_todo (ps_main c) ∧
                    pt_name <$> ps_tasks c = pre.*1;
  pi_sound : Forall (pt_sound order) (ps_tasks c);
  pi_cap : ps_cap c = length order;
  pi_wg : ps_wg c = Z.of_nat (length (pm_todo (ps_main c))
                              + sum_list_with pt_pending (ps_tasks c));
  pi_echan : ps_echan c ≡ₚ omap pt_sent (ps_tasks c);
  pi_closed : ps_closed c = true → ∃ r, ps_main c = PmReturned r;
  pi_waited : ps_main c = PmClose ∨ (∃ r, ps_main c = PmReturned r) → ps_wg c = 0%Z;
  pi_ret : ∀ r, ps_main c = PmReturned r →
                r = play_return (drain (ps_echan c) None)
}.

(** A bound on the steps a state of [Play] can still take. *)
Definition pt_fuel {W} (t : play_task W) : nat :=
  match t with
  | PtStart _ _ => 3
  | PtGot _ _ => 2
  | PtDefer _ _ => 1
  | PtDone _ _ | PtPanic _ => 0
  end.

Definition pm_fuel {W} (order : list (string * Player W)) (m : play_main W) : nat :=
  match m with
  | PmEntry => 4 * length order + 4
  | PmLoop todo => 4 * length todo + 3
  | PmWait => 2
  | PmClose => 1
  | PmReturned _ | PmPanicked => 0
  end.

Definition play_fuel {W} (order : list (string * Player W)) (c : play_state W) : nat :=
  pm_fuel order (ps_main c) + sum_list_with pt_fuel (ps_tasks c).

(** The state of [Play] after the test of [beenSetup], when the stage is
    ready: [wg.Add(len(s.players))] and [make(chan ..., len(s.players))] are
    done. *)
Definition play_entered {W} (s : Stage W) (order : list (string * Player W))
    (w : W) : play_state W :=
  mkPlayState (PmLoop order) [] (Z.of_nat (size (players s))) (size (players s))
    [] false w.

(** The calls of [Play] made since the log was [l0] are those of the
    goroutines that are past their call. *)
Definition play_log_inv {W} (ctx : Context) (l0 : list Event)
    (c : play_state (W * list Event)) : Prop :=
  ∃ d, (ps_world c).2 = l0 ++ d ∧ d ≡ₚ omap (pt_played ctx) (ps_tasks c).

(** 1 while the goroutine has not called [wg.Done()]. *)
Definition ct_pending {W} (t : clean_task W) : nat :=
  match t with
  | CtDone => 0
  | _ => 1
  end.

(** The entries for which [Clean] has yet to start a goroutine. *)
Definition cm_todo {W} (m : clean_main W) : list (string * Player W) :=
  match m with
  | CmLoop todo => todo
  | _ => []
  end.

(** The [i]-th goroutine holds the player of the [i]-th entry visited, and has
    not panicked. *)
Definition ct_sound {W} (order : list (string * Player W)) (i : nat)
    (t : clean_task W) : Prop :=
  match t with
  | CtStart q => ∃ n, order !! i = Some (n, q)
  | CtPanic => False
  | _ => True
  end.

(** What holds of a state of [Clean] once [wg.Add] is done. *)
Record clean_inv {W} (order : list (string * Player W)) (c : clean_state W) : Prop := {
  ci_main : cs_main c ≠ CmEntry;
  ci_todo : cm_todo (cs_main c) = drop (length (cs_tasks c)) order;
  ci_length : length (cs_tasks c) ≤ length order;
  ci_sound : ∀ i t, cs_tasks c !! i = Some t → ct_sound order i t;
  ci_wg : cs_wg c = Z.of_nat (length (cm_todo (cs_main c))
                              + sum_list_with ct_pending (cs_tasks c));
  ci_waited : cs_main c = CmReturned → cs_wg c = 0%Z
}.

(** The state of [Clean] after [wg.Add(len(s.players))]. *)
Definition clean_entered {W} (s : Stage W) (order : list (string * Player W))
    (w : W) : clean_state W :=
  mkCleanState (CmLoop order) [] (Z.of_nat (size (players s))) w.

(** A bound on the steps a state of [Clean] can still take. *)
Definition ct_fuel {W} (t : clean_task W) : nat :=
  match t with
  | CtStart _ => 2
  | CtDefer => 1
  | CtDone | CtPanic => 0
  end.

Definition cm_fuel {W} (order : list (string * Player W)) (m : clean_main W) : nat :=
  match m with
  | CmEntry => 3 * length order + 3
  | CmLoop todo => 3 * length todo + 2
  | CmWait => 1
  | CmReturned => 0
  end.

Definition clean_fuel {W} (order : list (string * Player W)) (c : clean_state W) : nat :=
  cm_fuel order (cs_main c) + sum_list_with ct_fuel (cs_tasks c).

(** The calls of [Clean] made by the goroutines that are past their call,
    the [i]-th goroutine holding the player registered as the [i]-th name. *)
Fixpoint ct_events {W} (tasks : list (clean_task W)) (names : list string)
  : list Event :=
  match tasks, names with
  | t :: tasks, n :: names =>
      match t with
      | CtStart _ => ct_events tasks names
      | _ => EvClean n :: ct_events tasks names
      end
  | _, _ => []
  end.

Definition clean_log_inv {W} (order : list (string * Player (W * list Event)))
    (l0 : list Event) (c : clean_state (W * list Event)) : Prop :=
  ∃ d, (cs_world c).2 = l0 ++ d ∧ d ≡ₚ ct_events (cs_tasks c) order.*1.

(** ** A stage under spies *)

(** The entry, the order and the stage in which every player is under a
    spy with the name it is registered as. *)
Definition spy_entry {W} (np : string * Player W)
  : string * Player (W * list Event) := (np.1, spy np.1 np.2).

Definition spy_stage {W} (s : Stage W) : Stage (W * list Event) :=
  mkStage (map_imap (λ n p, Some (spy n p)) (players s)) (beenSetup s).

(** The state of [Play] on the stage under spies that matches a state of
    [Play] on the stage, when the log is [l]. *)
Definition spy_play_task {W} (t : play_task W) : play_task (W * list Event) :=
  match t with
  | PtStart n p => PtStart n (spy n p)
  | PtGot n e => PtGot n e
  | PtDefer n e => PtDefer n e
  | PtDone n e => PtDone n e
  | PtPanic n => PtPanic n
  end.

Definition spy_play_main {W} (m : play_main W) : play_main (W * list Event) :=
  match m with
  | PmEntry => PmEntry
  | PmLoop todo => PmLoop (spy_entry <$> todo)
  | PmWait => PmWait
  | PmClose => PmClose
  | PmReturned r => PmReturned r
  | PmPanicked => PmPanicked
  end.

Definition spy_play_state {W} (l : list Event) (c : play_state W)
  : play_state (W * list Event) :=
  mkPlayState (spy_play_main (ps_main c)) (spy_play_task <$> ps_tasks c)
    (ps_wg c) (ps_cap c) (ps_echan c) (ps_closed c) (ps_world c, l).

(** The same for [Clean], whose [i]-th goroutine holds the player registered
    as the [i]-th of [names]. *)
Definition spy_clean_task {W} (names : list string) (i : nat) (t : clean_task W)
  : clean_task (W * list Event) :=
  match t with
  | CtStart p => CtStart (spy (default "" (names !! i)) p)
  | CtDefer => CtDefer
  | CtDone => CtDone
  | CtPanic => CtPanic
  end.

Definition spy_clean_main {W} (m : clean_main W) : clean_main (W * list Event) :=
  match m with
  | CmEntry => CmEntry
  | CmLoop todo => CmLoop (spy_entry <$> todo)
  | CmWait => CmWait
  | CmReturned => CmReturned
  end.

Definition spy_clean_state {W} (names : list string) (l : list Event)
    (c : clean_state W) : clean_state (W * list Event) :=
  mkCleanState (spy_clean_main (cs_main c))
    (imap (spy_clean_task names) (cs_tasks c)) (cs_wg c) (cs_world c, l).

(** The calls that [Setup], a run of [Play] and a run of [Clean] make on
    the players of a stage: the log that the same call leaves when every
    player is under a spy.  The call ends the same way under spies
    ([Setup_spy], [Play_spy], [Clean_spy] below). *)
Definition Setup_log {W} (order : list (string * Player W)) (s : Stage W) (w : W)
  : list Event :=
  (Setup (spy_entry <$> order) (spy_stage s) (w, [])).2.2.

Definition Play_log {W} (order : list (string * Player W)) (sched : list action)
    (s : Stage W) (ctx : Context) (w : W) : list Event :=
  match Play (spy_entry <$> order) sched (spy_stage s) ctx (w, []) with
  | Some (_, (_, d)) => d
  | None => []
  end.

Definition Clean_log {W} (order : list (string * Player W)) (sched : list action)
    (s : Stage W) (w : W) : list Event :=
  match Clean (spy_entry <$> order) sched (spy_stage s) (w, []) with
  | Some (_, d) => d
  | None => []
  end.

(** ** The flag as the specification words it *)

(** "[beenSetup] is true if and only if every player currently registered
    was setup without error in the most recent [setup()] call and none has
    since failed", read off the calls made on the stage since it was
    constructed: a call of [Setup] that returns [nil] makes it hold; a call of
    [Setup] that returns an error, a call of [Add] (the player it registers
    was not set up in the most recent call of [Setup]) and a call of [Play]
    that returns an error (a player has failed since) make it fail. *)
Definition beenSetup_per_spec {W} (h : list (call W * reply)) : bool :=
  foldl (λ flag cr,
           match cr with
           | (CallSetup, RErr None) => true
           | (CallSetup, _) => false
           | (CallAdd _ _, _) => false
           | (CallPlay _, RErr (Some _)) => false
           | _ => flag
           end) false h.

(** What the most recent call of [Setup] returned, if there was one. *)
Definition last_Setup {W} (h : list (call W * reply)) : option reply :=
  foldl (λ last cr,
           match cr with
           | (CallSetup, r) => Some r
           | _ => last
           end) None h.

(** ** Some players *)

(** A player whose methods do nothing and never fail. *)
Definition quiet : Player unit :=
  mkPlayer (λ _ w, (None, w)) (λ w, (None, w)) (λ w, w).

(** A player whose [Play] returns the error [X]. *)
Definition fails_play : Player unit :=
  mkPlayer (λ _ w, (Some (ErrOther "X"), w)) (λ w, (None, w)) (λ w, w).

(** A player whose [Setup] returns the error [Y]. *)
Definition fails_setup : Player unit :=
  mkPlayer (λ _ w, (None, w)) (λ w, (Some (ErrOther "Y"), w)) (λ w, w).

(** A player that counts the calls of its [Setup] in the world, and whose
    [Setup] returns an error from the second call on. *)
Definition setup_once : Player nat :=
  mkPlayer (λ _ w, (None, w))
           (λ w, (match w with 0 => None | S _ => Some (ErrOther "again") end, S w))
           (λ w, w).

(** The stage [{"a": quiet, "b": fails_play}], visited in the order a, b. *)
Definition stage_ab : Stage unit :=
  Add "a" quiet (Add "b" fails_play NewStage).

Definition order_ab : list (string * Player unit) :=
  [("a", quiet); ("b", fails_play)].

(** The stage [{"a": quiet, "b": fails_setup, "c": quiet}], visited in the
    order a, b, c. *)
Definition stage_abc : Stage unit :=
  Add "a" quiet (Add "b" fails_setup (Add "c" quiet NewStage)).

Definition order_abc : list (string * Player unit) :=
  [("a", quiet); ("b", fails_setup); ("c", quiet)].

(** A stage whose one player sets up once: the second call of [Setup] fails. *)
Definition stage_once : Stage nat := Add "a" setup_once NewStage.

(** A stage with the players of [s], in the ready state. *)
Definition ready {W} (s : Stage W) : Stage W := mkStage (players s) true.

(** ** The results of the goroutines *)

(** What the call of [Play] of a goroutine returned. *)
Definition pt_result {W} (t : play_task W) : option (string * option error) :=
  match t with
  | PtGot n e | PtDefer n e | PtDone n e => Some (n, e)
  | PtStart _ _ | PtPanic _ => None
  end.

(** ** The life cycle in a log *)

(** Every call of [Add] in [h] registers a spy under the name given. *)
Definition adds_spies {W} (h : list (call (W * list Event) * reply)) : Prop :=
  Forall (λ cr, match cr.1 with
                | CallAdd n p => ∃ p0, p = spy n p0
                | _ => True
                end) h.

(** No call of [Add] in [h] comes after a call of [Setup] that returned
    [nil]. *)
Definition adds_before_setup {W} (h : list (call W * reply)) : Prop :=
  ∀ h1 n p r h2, h = h1 ++ (CallAdd n p, r) :: h2 → ¬ setup_succeeded h1.

(** In the log [l] every call of [Play] on a player comes after a call of
    [Setup] on the player of that name that returned [nil]. *)
Definition setup_before_play (l : list Event) : Prop :=
  ∀ i n ctx e, l !! i = Some (EvPlay n ctx e) →
               ∃ j, j < i ∧ l !! j = Some (EvSetup n None).

(** The event is not a call of [Play]. *)
Definition not_a_play (ev : Event) : Prop :=
  match ev with EvPlay _ _ _ => False | _ => True end.

(** What holds of a stage and its log while no player is added to a ready
    stage: the players are spies, the calls of [Play] come after a call of
    [Setup] that returned [nil], and on a ready stage every registered
    player has had such a call. *)
Definition life_inv {W} (x : Stage (W * list Event) * (W * list Event)) : Prop :=
  spied x.1 ∧ setup_before_play x.2.2 ∧
  (beenSetup x.1 = true →
   ∀ n, is_Some (players x.1 !! n) → EvSetup n None ∈ x.2.2).

(** ** The messages of the errors *)

(** [func (e ErrSetup) Error() string] and [func (e *ErrPlay) Error() string].
    [fmt.Sprintf] with the verb [%s] prints a string as it is and an error
    by its [Error] method; the message of an error of a player's own is the
    string it carries.  The [range] over the map of an [ErrPlay] visits
    its entries in an order that the language leaves open: [visit path l] is
    the order in which the entries [l] of the map reached through the
    players [path] are visited. *)
Fixpoint Error (visit : list string → list (string * string) → list (string * string))
    (path : list string) (e : error) : string :=
  match e with
  | ErrOther msg => msg
  | ErrSetup p err =>
      "ErrSetup: " +:+ p +:+ ": " +:+ Error visit (path ++ [p]) err
  | ErrPlay m =>
      foldl (λ k ne, k +:+ " |" +:+ ne.1 +:+ ": " +:+ ne.2 +:+ "|")
        "ErrPlay:"
        (visit path (map_to_list
           (map_imap (λ name err, Some (Error visit (path ++ [name]) err)) m)))
  end.

(** Every [range] visits every entry of its map once. *)
Definition visits_all (visit : list string → list (string * string) → list (string * string)) : Prop :=
  ∀ path l, visit path l ≡ₚ l.

(** The text that [ErrPlay.Error] appends for one entry. *)
Definition entry_text (ne : string * string) : string :=
  " |" +:+ ne.1 +:+ ": " +:+ ne.2 +:+ "|".

(** The texts of [l], one after the other. *)
Definition concat_text (l : list string) : string := foldr String.append "" l.

(** * Properties *)

(** ** The iteration order *)

Section Ranges.
Context {W : Type}.
Implicit Types (s : Stage W) (order : list (string * Player W)).

Lemma ranges_exists s : ∃ order, ranges s order.
Proof. exists (map_to_list (players s)). unfold ranges. reflexivity. Qed.

Lemma ranges_NoDup s order : ranges s order → NoDup order.*1.
Proof.
  intros H. unfold ranges in H. rewrite H. apply NoDup_fst_map_to_list.
Qed.

Lemma ranges_elem_of s order n p :
  ranges s order → (n, p) ∈ order ↔ players s !! n = Some p.
Proof.
  intros H. unfold ranges in H. rewrite H. apply elem_of_map_to_list.
Qed.

Lemma ranges_names s order n :
  ranges s order → n ∈ order.*1 ↔ is_Some (players s !! n).
Proof.
  intros H. rewrite list_elem_of_fmap. split.
  - intros [[m p] [-> Hin]]. exists p. by apply (ranges_elem_of s order).
  - intros [p Hp]. exists (n, p). split; [done|]. by apply (ranges_elem_of s order).
Qed.

Lemma ranges_length s order : ranges s order → length order = size (players s).
Proof.
  intros H. unfold ranges in H. rewrite H. by rewrite length_map_to_list.
Qed.

Lemma ranges_NewStage order : ranges (@NewStage W) order → order = [].
Proof.
  unfold ranges, NewStage; simpl. rewrite map_to_list_empty.
  apply Permutation_nil_r.
Qed.
End Ranges.

(** ** The first loop of Setup *)

Section SetupLoop.
Context {W : Type}.
Implicit Types (s : Stage W) (order pre post : list (string * Player W)).
Implicit Types (v : setup_vars W) (w : W).

Lemma setup_loop_ok order : ∀ v w w1,
  sv_err v = None →
  setups_ok order w = Some w1 →
  setup_loop order v w
  = (mkSetupVars None (sv_faulty v) (sv_good v ++ order.*2), w1).
Proof.
  induction order as [|[n p] rest IH]; intros v w w1 Hv Hok; simpl in *.
  - destruct v as [err f g]; simpl in *. rewrite app_nil_r. congruence.
  - destruct (p_Setup p w) as [[e|] w'] eqn:Hp; [done|].
    rewrite (IH _ _ w1); [|done|done]. simpl. by rewrite <- app_assoc.
Qed.

Lemma setup_loop_fail pre : ∀ n p post v w w1 e w2,
  setups_ok pre w = Some w1 →
  p_Setup p w1 = (Some e, w2) →
  setup_loop (pre ++ (n, p) :: post) v w
  = (mkSetupVars (Some e) n (sv_good v ++ pre.*2), w2).
Proof.
  induction pre as [|[m q] rest IH]; intros n p post v w w1 e w2 Hok Hp;
    simpl in *.
  - inversion Hok; subst. rewrite Hp. by rewrite app_nil_r.
  - destruct (p_Setup q w) as [[e'|] w'] eqn:Hq; [done|].
    rewrite (IH n p post _ _ w1 e w2); [|done|done].
    simpl. by rewrite <- app_assoc.
Qed.

(** Either every setup succeeds, or there is a first one that fails. *)
Lemma setups_ok_or_first_failure order : ∀ w,
  (∃ w1, setups_ok order w = Some w1) ∨
  (∃ pre n p post w1 e w2,
      order = pre ++ (n, p) :: post ∧
      setups_ok pre w = Some w1 ∧ p_Setup p w1 = (Some e, w2)).
Proof.
  induction order as [|[n p] rest IH]; intros w; simpl.
  - left. by exists w.
  - destruct (p_Setup p w) as [[e|] w'] eqn:Hp.
    + right. exists [], n, p, rest, w, e, w'. by rewrite Hp.
    + destruct (IH w') as [[w1 H1]|(pre & m & q & post & w1 & e & w2 & -> & H1 & H2)].
      * left. by exists w1.
      * right. exists ((n, p) :: pre), m, q, post, w1, e, w2.
        simpl. by rewrite Hp.
Qed.

Lemma Setup_ok s order w w1 :
  setups_ok order w = Some w1 →
  Setup order s w = (None, mkStage (players s) true, w1).
Proof.
  intros Hok. unfold Setup. by rewrite (setup_loop_ok order _ w w1).
Qed.

Lemma Setup_fail s pre n p post w w1 e w2 :
  setups_ok pre w = Some w1 →
  p_Setup p w1 = (Some e, w2) →
  Setup (pre ++ (n, p) :: post) s w
  = (Some (ErrSetup n e), s, clean_good pre.*2 w2).
Proof.
  intros Hok Hp. unfold Setup.
  by rewrite (setup_loop_fail pre n p post _ w w1 e w2).
Qed.

(** [Setup] returns [nil] exactly when every setup succeeds, and is then
    the only way the flag gets set. *)
Lemma Setup_nil_iff s order w s' w' :
  Setup order s w = (None, s', w') ↔
  setups_ok order w = Some w' ∧ s' = mkStage (players s) true.
Proof.
  split.
  - intros H.
    destruct (setups_ok_or_first_failure order w)
      as [[w1 H1]|(pre & n & p & post & w1 & e & w2 & -> & H1 & H2)].
    + rewrite (Setup_ok s order w w1 H1) in H. by inversion H; subst.
    + by rewrite (Setup_fail s pre n p post w w1 e w2 H1 H2) in H.
  - intros [H ->]. by apply Setup_ok.
Qed.

Lemma Setup_err_stage s order w e s' w' :
  Setup order s w = (Some e, s', w') → s' = s.
Proof.
  intros H.
  destruct (setups_ok_or_first_failure order w)
    as [[w1 H1]|(pre & n & p & post & w1 & e' & w2 & -> & H1 & H2)].
  - by rewrite (Setup_ok s order w w1 H1) in H.
  - rewrite (Setup_fail s pre n p post w w1 e' w2 H1 H2) in H.
    by inversion H.
Qed.

Lemma Setup_players s order w r s' w' :
  Setup order s w = (r, s', w') → players s' = players s.
Proof.
  destruct r as [e|]; intros H.
  - by rewrite (Setup_err_stage _ _ _ _ _ _ H).
  - apply Setup_nil_iff in H as [_ ->]. done.
Qed.
End SetupLoop.

(** ** Reading a log *)

Section Logs.
Context {A B C : Type}.

Lemma omap_fmap_none (g : A → B) (f : B → option C) (names : list A) :
  (∀ n, n ∈ names → f (g n) = None) → omap f (g <$> names) = [].
Proof.
  induction names as [|a names IH]; intros H; simpl; [done|].
  rewrite (H a); [|by left]. apply IH. intros n Hn. apply H. by right.
Qed.

Lemma omap_fmap_once (g : A → B) (f : B → option C) (names : list A) m c :
  NoDup names → m ∈ names → f (g m) = Some c →
  (∀ n, n ∈ names → n ≠ m → f (g n) = None) →
  omap f (g <$> names) = [c].
Proof.
  induction names as [|a names IH]; intros Hnd Hin Hm Hothers; simpl.
  - by apply elem_of_nil in Hin.
  - apply NoDup_cons in Hnd as [Ha Hnd].
    apply elem_of_cons in Hin as [<-|Hin].
    + rewrite Hm. f_equal. apply omap_fmap_none.
      intros n Hn. apply Hothers; [by right|]. by intros ->.
    + rewrite (Hothers a); [|by left|by intros ->].
      apply IH; [done..|]. intros n Hn. apply Hothers. by right.
Qed.
End Logs.

Section SetupLog.
Context {W : Type}.
Implicit Types (l pre post : list (string * Player (W * list Event))).
Implicit Types (wl : W * list Event).

Lemma spied_ranges (s : Stage (W * list Event)) order :
  spied s → ranges s order → spied_entries order.
Proof.
  intros Hs Hr. apply Forall_forall. intros [n p] Hin.
  apply (ranges_elem_of s order n p Hr) in Hin. by apply Hs.
Qed.

Lemma spy_Setup_log n (p0 : Player W) wl e wl' :
  p_Setup (spy n p0) wl = (e, wl') → wl'.2 = wl.2 ++ [EvSetup n e].
Proof.
  simpl. destruct (p_Setup p0 wl.1) as [e0 w0]. by intros [= <- <-].
Qed.

Lemma setups_ok_log l : ∀ wl wl1,
  spied_entries l →
  setups_ok l wl = Some wl1 →
  wl1.2 = wl.2 ++ ((λ n, EvSetup n None) <$> l.*1).
Proof.
  induction l as [|[n p] l IH]; intros wl wl1 Hsp Hok; simpl in *.
  - inversion Hok. by rewrite app_nil_r.
  - apply Forall_cons in Hsp as [[p0 Hp] Hsp]. simpl in Hp. subst p.
    destruct (p_Setup (spy n p0) wl) as [[e|] wl'] eqn:Hs; [done|].
    apply spy_Setup_log in Hs. rewrite (IH wl' wl1 Hsp Hok), Hs.
    by rewrite <- app_assoc.
Qed.

Lemma clean_good_log l : ∀ wl,
  spied_entries l →
  (clean_good l.*2 wl).2 = wl.2 ++ (EvClean <$> l.*1).
Proof.
  unfold clean_good.
  induction l as [|[n p] l IH]; intros wl Hsp; simpl.
  - by rewrite app_nil_r.
  - apply Forall_cons in Hsp as [[p0 Hp] Hsp]. simpl in Hp. subst p.
    rewrite (IH _ Hsp). simpl. by rewrite <- app_assoc.
Qed.
End SetupLog.


(** ** Lists of goroutines *)

Section Updates.
Context {A B : Type}.
Implicit Types (l : list A) (i : nat).

Lemma sum_list_with_insert (f : A → nat) l i x y :
  l !! i = Some x →
  sum_list_with f (<[i := y]> l) + f x = sum_list_with f l + f y.
Proof.
  revert i. induction l as [|a l IH]; intros [|i] H; simpl in *; try done.
  - inversion H; subst. lia.
  - specialize (IH i H). lia.
Qed.

Lemma sum_list_with_snoc (f : A → nat) l x :
  sum_list_with f (l ++ [x]) = sum_list_with f l + f x.
Proof. rewrite sum_list_with_app. simpl. lia. Qed.

Lemma sum_list_with_lookup (f : A → nat) (l : list A) i x :
  l !! i = Some x → f x ≤ sum_list_with f l.
Proof.
  revert i. induction l as [|a l IH]; intros [|i] H; simpl in *; try done.
  - inversion H; subst. lia.
  - specialize (IH i H). lia.
Qed.

Lemma sum_list_with_pos (f : A → nat) l :
  0 < sum_list_with f l → ∃ i x, l !! i = Some x ∧ 0 < f x.
Proof.
  induction l as [|a l IH]; simpl; [lia|]. intros H.
  destruct (decide (0 < f a)) as [Ha|Ha].
  - by exists 0, a.
  - destruct IH as (i & x & Hi & Hx); [lia|]. by exists (S i), x.
Qed.

Lemma sum_list_with_zero (f : A → nat) l :
  sum_list_with f l = 0 → Forall (λ x, f x = 0) l.
Proof.
  induction l as [|a l IH]; simpl; intros H; constructor; [lia|].
  apply IH. lia.
Qed.

Lemma omap_insert_same (f : A → option B) l i x y :
  l !! i = Some x → f y = f x → omap f (<[i := y]> l) = omap f l.
Proof.
  revert i. induction l as [|a l IH]; intros [|i] H Hf; csimpl in *; try done.
  - inversion H; subst. by rewrite Hf.
  - by rewrite (IH i H Hf).
Qed.

Lemma omap_insert_new (f : A → option B) l i x y b :
  l !! i = Some x → f x = None → f y = Some b →
  omap f (<[i := y]> l) ≡ₚ b :: omap f l.
Proof.
  revert i. induction l as [|a l IH]; intros [|i] H Hx Hy; csimpl in *;
    try done.
  - inversion H; subst. by rewrite Hx, Hy.
  - specialize (IH i H Hx Hy). destruct (f a); csimpl.
    + rewrite IH. apply perm_swap.
    + exact IH.
Qed.

Lemma omap_length_le (f : A → option B) (l : list A) :
  length (omap f l) ≤ length l.
Proof.
  induction l as [|a l IH]; csimpl; [done|]. destruct (f a); simpl; lia.
Qed.

Lemma omap_length_lt (f : A → option B) (l : list A) i x :
  l !! i = Some x → f x = None → length (omap f l) < length l.
Proof.
  intros Hi Hx. 
  revert i Hi. induction l as [|a l IH]; intros [|i] Hi; csimpl in *; try done.
  - inversion Hi; subst. rewrite Hx. pose proof (omap_length_le f l). lia.
  - specialize (IH i Hi). destruct (f a); simpl; lia.
Qed.

Lemma NoDup_fmap_elem_eq (f : A → B) (l : list A) x y :
  NoDup (f <$> l) → x ∈ l → y ∈ l → f x = f y → x = y.
Proof.
  induction l as [|a l IH]; intros Hnd Hx Hy Hf; [by apply elem_of_nil in Hx|].
  rewrite fmap_cons in Hnd. apply NoDup_cons in Hnd as [Ha Hnd].
  apply elem_of_cons in Hx as [->|Hx]; apply elem_of_cons in Hy as [->|Hy].
  - done.
  - destruct Ha. rewrite Hf. by apply list_elem_of_fmap_2.
  - destruct Ha. rewrite <- Hf. by apply list_elem_of_fmap_2.
  - by apply IH.
Qed.

Lemma imap_insert (f : nat → A → B) (l : list A) i x :
  imap f (<[i := x]> l) = <[i := f i x]> (imap f l).
Proof.
  revert f i. induction l as [|a l IH]; intros f [|i]; simpl; try done.
  by rewrite IH.
Qed.

Lemma fmap_insert_same (f : A → B) l i x y :
  l !! i = Some x → f y = f x → f <$> <[i := y]> l = f <$> l.
Proof.
  intros H Hf. rewrite list_fmap_insert, Hf. apply list_insert_id.
  by rewrite list_lookup_fmap, H.
Qed.
End Updates.

(** ** The second loop of Play *)

Section Drain.
Lemma drain_app buf1 buf2 err :
  drain (buf1 ++ buf2) err = drain buf2 (drain buf1 err).
Proof.
  revert err. induction buf1 as [|[n e] buf1 IH]; intros err; simpl; [done|].
  by rewrite IH.
Qed.

(** The second loop of [Play] builds the map of the values sent, when no
    name was sent twice. *)
Lemma drain_NoDup buf :
  NoDup buf.*1 →
  drain buf None = match buf with [] => None | _ => Some (list_to_map buf) end.
Proof.
  induction buf as [|[n e] buf IH] using rev_ind; intros Hnd; [done|].
  rewrite fmap_app in Hnd. apply NoDup_app in Hnd as (Hnd & Hdisj & _).
  rewrite drain_app, (IH Hnd). simpl.
  assert (n ∉ buf.*1) as Hn.
  { intros Hin. apply (Hdisj n Hin). simpl. by left. }
  rewrite list_to_map_snoc by done.
  destruct buf as [|x buf]; simpl; [done|].
  by destruct (x :: buf ++ [(n, e)]) eqn:E.
Qed.
End Drain.

(** ** Play *)

Ltac step_cases :=
  repeat case_match; simplify_eq; simpl in *.

Section PlayMachine.
Context {W : Type}.
Implicit Types (s : Stage W) (order : list (string * Player W)).
Implicit Types (c : play_state W) (a : action) (sched : list action).

Lemma play_step_fuel s order ctx a c c' :
  play_step s order ctx a c = Some c' →
  play_fuel order c' < play_fuel order c.
Proof.
  intros H. unfold play_step in H. unfold play_fuel.
  step_cases; try lia;
    try (rewrite sum_list_with_snoc; simpl; lia);
    match goal with
    | Hl : ?l !! ?i = Some ?x |- context [<[?i := ?y]> ?l] =>
        pose proof (sum_list_with_insert pt_fuel l i x y Hl); simpl in *; lia
    end.
Qed.

(** A goroutine that has yet to call [wg.Done()] keeps [Play] before the
    end of [wg.Wait()]. *)
Lemma play_inv_pending order c i t :
  play_inv order c →
  ps_tasks c !! i = Some t → pt_pending t = 1 →
  (1 ≤ ps_wg c)%Z ∧ ps_closed c = false ∧
  ps_main c ≠ PmClose ∧ ∀ r, ps_main c ≠ PmReturned r.
Proof.
  intros [_ _ _ _ Hwg _ Hcl Hwt _] Hi Ht.
  pose proof (sum_list_with_lookup pt_pending _ _ _ Hi) as Hle.
  assert (1 ≤ ps_wg c)%Z as H1 by lia.
  assert (ps_main c ≠ PmClose) as H2.
  { intros Hm. specialize (Hwt (or_introl Hm)). lia. }
  assert (∀ r, ps_main c ≠ PmReturned r) as H3.
  { intros r Hm. specialize (Hwt (or_intror (ex_intro _ r Hm))). lia. }
  repeat split; try done.
  destruct (ps_closed c); [|done]. destruct Hcl as [r Hr]; [done|].
  by destruct (H3 r).
Qed.

Lemma play_step_inv s order ctx a c c' :
  play_inv order c →
  play_step s order ctx a c = Some c' →
  play_inv order c'.
Proof.
  intros Hinv H.
  pose proof (λ i t, play_inv_pending order c i t Hinv) as Hpend.
  destruct Hinv as [[Hm1 Hm2] (pre & Hord & Hnames) Hsound Hcap Hwg Hech Hcl Hwt Hret].
  unfold play_step in H. destruct c as [main tasks wg cap echan closed w].
  simpl in *.
  step_cases;
    try match goal with
    | Hl : tasks !! ?i = Some ?x |- context [<[?i := ?y]> tasks] =>
        pose proof (sum_list_with_insert pt_pending tasks i x y Hl) as Hsum;
        destruct (Hpend i x Hl eq_refl) as (Hpos & Hopen & Hnc & Hnr);
        simpl in Hsum
    end.
  - (* the loop is left *)
    constructor; simpl; try done.
    + by exists pre.
    + intros Hc. by destruct (Hcl Hc).
    + intros [?|[? ?]]; done.
  - (* a goroutine is started *)
    constructor; simpl; try done.
    + match goal with |- context [PtStart ?n ?p] => exists (pre ++ [(n, p)]) end.
      rewrite <- app_assoc. split; [done|].
      by rewrite !fmap_app, Hnames.
    + apply Forall_app. split; [done|]. constructor; [|done]. simpl.
      apply elem_of_app. right. by left.
    + rewrite sum_list_with_snoc. simpl. lia.
    + rewrite omap_app. simpl. by rewrite app_nil_r.
    + intros Hc. by destruct (Hcl Hc).
    + intros [?|[? ?]]; done.
  - (* wg.Wait() returns *)
    constructor; simpl; try done.
    + by exists pre.
    + intros Hc. by destruct (Hcl Hc).
  - (* close(echan), the second loop and the return *)
    constructor; simpl; try done.
    + by exists pre.
    + intros _. by eexists.
    + intros _. apply Hwt. by left.
    + by intros r [= <-].
  - (* player.Play(ctx) *)
    constructor; simpl; try done.
    + exists pre. split; [done|]. by erewrite fmap_insert_same.
    + by apply Forall_insert.
    + lia.
    + by erewrite omap_insert_same.
  - (* a send on the closed channel *)
    done.
  - (* echan <- {n, e} *)
    constructor; simpl; try done.
    + exists pre. split; [done|]. by erewrite fmap_insert_same.
    + by apply Forall_insert.
    + lia.
    + rewrite omap_insert_new by done. rewrite Hech.
      symmetry. apply Permutation_cons_append.
    + intros r Hr. by destruct (Hnr r).
  - (* e == nil *)
    constructor; simpl; try done.
    + exists pre. split; [done|]. by erewrite fmap_insert_same.
    + by apply Forall_insert.
    + lia.
    + by erewrite omap_insert_same.
  - (* wg.Done() on a counter that is 0 *)
    lia.
  - (* wg.Done() *)
    constructor; simpl; try done.
    + exists pre. split; [done|]. by erewrite fmap_insert_same.
    + by apply Forall_insert.
    + lia.
    + erewrite omap_insert_same; [done..|].
      match goal with |- context [PtDone _ ?e] => by destruct e end.
    + intros [?|[r ?]]; [done|]. by destruct (Hnr r).
Qed.

Lemma play_run_app s order ctx sched1 sched2 c :
  play_run s order ctx (sched1 ++ sched2) c
  = match play_run s order ctx sched1 c with
    | Some c1 => play_run s order ctx sched2 c1
    | None => None
    end.
Proof.
  revert c. induction sched1 as [|a sched1 IH]; intros c; simpl; [done|].
  destruct (play_step s order ctx a c); [apply IH|done].
Qed.

Lemma play_run_inv s order ctx sched : ∀ c c',
  play_inv order c →
  play_run s order ctx sched c = Some c' →
  play_inv order c'.
Proof.
  induction sched as [|a sched IH]; intros c c' Hinv H; simpl in H.
  - by inversion H; subst.
  - destruct (play_step s order ctx a c) as [c1|] eqn:Hs; [|done].
    eapply IH; [|done]. by eapply play_step_inv.
Qed.

Lemma play_inv_entered s order w :
  ranges s order → play_inv order (play_entered s order w).
Proof.
  intros Hr. apply ranges_length in Hr.
  constructor; simpl; try done.
  - by exists [].
  - f_equal. lia.
  - intros [?|[? ?]]; done.
Qed.

Lemma play_step_init s order ctx a w c :
  play_step s order ctx a (play_init w) = Some c →
  a = AMain ∧
  c = if beenSetup s then play_entered s order w
      else mkPlayState PmPanicked [] 0%Z 0 [] false w.
Proof.
  unfold play_step, play_init, play_entered. intros H.
  destruct a as [|i]; [|by rewrite lookup_nil in H]. split; [done|].
  destruct (beenSetup s); by inversion H.
Qed.

(** A run from the entry of [Play] on a ready stage. *)
Lemma play_run_ready s order ctx sched w c :
  ranges s order →
  beenSetup s = true →
  play_run s order ctx sched (play_init w) = Some c →
  (sched = [] ∧ c = play_init w) ∨
  (∃ rest, sched = AMain :: rest ∧
           play_run s order ctx rest (play_entered s order w) = Some c ∧
           play_inv order c).
Proof.
  intros Hr Hb H. destruct sched as [|a rest]; cbn [play_run] in H.
  - left. by inversion H.
  - right. destruct (play_step s order ctx a (play_init w)) as [c1|] eqn:Hs;
      [|done].
    apply play_step_init in Hs as [-> ->]. rewrite Hb in H.
    exists rest. split; [done|]. split; [done|].
    eapply play_run_inv; [by apply play_inv_entered|done].
Qed.

(** A run from the entry of [Play] on a stage that is not ready. *)
Lemma play_run_unready s order ctx sched w c :
  beenSetup s = false →
  play_run s order ctx sched (play_init w) = Some c →
  (sched = [] ∧ c = play_init w) ∨
  (sched = [AMain] ∧ c = mkPlayState PmPanicked [] 0%Z 0 [] false w).
Proof.
  intros Hb H. destruct sched as [|a rest]; cbn [play_run] in H.
  - left. by inversion H.
  - right. destruct (play_step s order ctx a (play_init w)) as [c1|] eqn:Hs;
      [|done].
    apply play_step_init in Hs as [-> ->]. rewrite Hb in H.
    destruct rest as [|[|i] rest]; simpl in H; [|done..].
    by inversion H.
Qed.

(** No deadlock: a state of [Play] that has not returned can take a step. *)
Lemma play_progress s order ctx c :
  play_inv order c →
  (∀ r, ps_main c ≠ PmReturned r) →
  ∃ a c', play_step s order ctx a c = Some c'.
Proof.
  intros Hinv Hnr.
  pose proof (λ i t, play_inv_pending order c i t Hinv) as Hpend.
  destruct Hinv as [[Hm1 Hm2] (pre & Hord & Hnames) Hsound Hcap Hwg Hech Hcl Hwt Hret].
  destruct c as [main tasks wg cap echan closed w]. simpl in *.
  destruct main as [|[|[n p] todo]| | |r|]; try done.
  - exists AMain. by eexists.
  - exists AMain. by eexists.
  - destruct (decide (wg = 0%Z)) as [Hz|Hz].
    { exists AMain. unfold play_step. destruct (decide (wg = 0%Z)); [|done]. by eexists. }
    simpl in Hwg.
    destruct (sum_list_with_pos pt_pending tasks) as (i & t & Hi & Ht); [lia|].
    assert (pt_pending t = 1) as Ht1 by (destruct t; simpl in *; done || lia).
    destruct (Hpend i t Hi Ht1) as (Hpos & Hopen & _).
    pose proof (Forall_lookup_1 _ _ _ _ Hsound Hi) as Hs.
    assert (pt_sent t = None → length echan < cap) as Hroom.
    { intros Hsent. rewrite Hech, Hcap, Hord, app_nil_r.
      rewrite <- (length_fmap fst pre), <- Hnames, length_fmap.
      by apply (omap_length_lt _ _ i t). }
    exists (ATask i). unfold play_step. rewrite Hi, Hopen.
    destruct t as [m q|m [e|]|m e|m e|m]; simpl in *; try done.
    + destruct (p_Play q ctx w). by eexists.
    + case_decide; [by eexists|]. by specialize (Hroom eq_refl).
    + by eexists.
    + case_decide; [lia|]. by eexists.
  - exists AMain. by eexists.
  - by destruct (Hnr r).
Qed.

(** Every state of [Play] on a ready stage has a run to the return. *)
Lemma play_terminates s order ctx c :
  play_inv order c →
  ∃ sched c' r,
    play_run s order ctx sched c = Some c' ∧ ps_main c' = PmReturned r.
Proof.
  remember (play_fuel order c) as k eqn:Hk.
  revert c Hk. induction (lt_wf k) as [k _ IH]. intros c -> Hinv.
  destruct (ps_main c) as [| | | |r|] eqn:Hm;
    try (destruct (play_progress s order ctx c Hinv) as (a & c1 & Hs);
         [by rewrite Hm|];
         destruct (IH _ (play_step_fuel _ _ _ _ _ _ Hs) c1 eq_refl
                      (play_step_inv _ _ _ _ _ _ Hinv Hs))
           as (sched & c' & r' & Hrun & Hret);
         exists (a :: sched), c', r'; simpl; by rewrite Hs).
  exists [], c, r. done.
Qed.

(** A state of [Play] that has returned: every goroutine has ended. *)
Lemma play_inv_returned order c r :
  play_inv order c → ps_main c = PmReturned r →
  pt_name <$> ps_tasks c = order.*1 ∧
  Forall (λ t, pt_pending t = 0) (ps_tasks c) ∧
  r = play_return (drain (ps_echan c) None).
Proof.
  intros [_ (pre & Hord & Hnames) _ _ Hwg _ _ Hwt Hret] Hm.
  rewrite Hm in *. simpl in *. rewrite app_nil_r in Hord. subst pre.
  split; [done|]. split; [|by apply Hret].
  apply sum_list_with_zero. specialize (Hwt (or_intror (ex_intro _ r eq_refl))).
  lia.
Qed.
End PlayMachine.

(** ** The calls Play makes *)

Section PlayLog.
Context {W : Type}.
Implicit Types (s : Stage (W * list Event)).
Implicit Types (order : list (string * Player (W * list Event))).
Implicit Types (c : play_state (W * list Event)) (tasks : list (play_task (W * list Event))).

Lemma spy_Play_log n (p0 : Player W) ctx (wl : W * list Event) e wl' :
  p_Play (spy n p0) ctx wl = (e, wl') → wl'.2 = wl.2 ++ [EvPlay n ctx e].
Proof.
  simpl. destruct (p_Play p0 ctx wl.1) as [e0 w0]. by intros [= <- <-].
Qed.

Lemma play_step_log s order ctx a c c' l0 :
  spied_entries order →
  play_inv order c →
  play_log_inv ctx l0 c →
  play_step s order ctx a c = Some c' →
  play_log_inv ctx l0 c'.
Proof.
  intros Hsp Hinv (d & Hlog & Hd) H.
  pose proof (play_step_inv s order ctx a c c' Hinv H) as Hinv'.
  pose proof (pi_sound _ _ Hinv) as Hsound.
  pose proof (pi_sound _ _ Hinv') as Hsound'.
  unfold play_step in H. destruct c as [main tasks wg cap echan closed w].
  simpl in *.
  step_cases;
    try match goal with
    | Hl : tasks !! ?i = Some _, Hs : Forall _ (<[?i := PtPanic _]> tasks) |- _ =>
        apply lookup_lt_Some in Hl;
        by pose proof (Forall_lookup_1 _ _ _ _ Hs (list_lookup_insert_eq _ _ _ Hl))
    end;
    try (exists d; split; [done|]; simpl;
         first [ done
               | by erewrite omap_insert_same
               | by rewrite omap_app, app_nil_r ]).
  (* player.Play(ctx) *)
  lazymatch goal with
  | Hl : tasks !! ?i = Some (PtStart ?n ?p), Hp : p_Play ?p ctx w = (?e, ?w') |- _ =>
      pose proof (Forall_lookup_1 _ _ _ _ Hsound Hl) as Hin; simpl in Hin;
      apply (proj1 (Forall_forall _ _) Hsp) in Hin as [q Hq]; simpl in Hq;
      subst p; apply spy_Play_log in Hp;
      exists (d ++ [EvPlay n ctx e]); simpl; split;
      [ by rewrite Hp, Hlog, <- app_assoc
      | erewrite omap_insert_new by done; rewrite Hd;
        symmetry; apply Permutation_cons_append ]
  end.
Qed.

Lemma play_run_log s order ctx sched l0 : ∀ c c',
  spied_entries order →
  play_inv order c →
  play_log_inv ctx l0 c →
  play_run s order ctx sched c = Some c' →
  play_log_inv ctx l0 c'.
Proof.
  induction sched as [|a sched IH]; intros c c' Hsp Hinv Hlog H; simpl in H.
  - by inversion H; subst.
  - destruct (play_step s order ctx a c) as [c1|] eqn:Hs; [|done].
    eapply IH; [done| | |done].
    + by eapply play_step_inv.
    + by eapply play_step_log.
Qed.

Lemma play_log_inv_entered s order ctx (wl : W * list Event) :
  play_log_inv ctx wl.2 (play_entered s order wl).
Proof. exists []. simpl. by rewrite app_nil_r. Qed.

(** What the goroutines of [Play] have done, read from the log. *)
Lemma plays_absent tasks ctx n :
  n ∉ pt_name <$> tasks → plays n (omap (pt_played ctx) tasks) = [].
Proof.
  induction tasks as [|t tasks IH]; intros Hn; csimpl; [done|].
  rewrite fmap_cons, not_elem_of_cons in Hn. destruct Hn as [Hne Hn].
  unfold plays in *.
  destruct t as [m q|m e|m e|m e|m]; csimpl in *; rewrite ?decide_False by done;
    by apply IH.
Qed.

Lemma plays_done tasks ctx n e :
  NoDup (pt_name <$> tasks) → PtDone n e ∈ tasks →
  plays n (omap (pt_played ctx) tasks) = [(ctx, e)].
Proof.
  induction tasks as [|t tasks IH]; intros Hnd Hin;
    [by apply elem_of_nil in Hin|].
  rewrite fmap_cons in Hnd. apply NoDup_cons in Hnd as [Ht Hnd].
  apply elem_of_cons in Hin as [<-|Hin].
  - pose proof (plays_absent tasks ctx n Ht) as Habs.
    unfold plays in *. csimpl. rewrite decide_True by done. csimpl.
    by rewrite Habs.
  - assert (pt_name t ≠ n) as Hne.
    { intros <-. apply Ht. by apply (list_elem_of_fmap_2 pt_name _ _ Hin). }
    specialize (IH Hnd Hin). unfold plays in *.
    destruct t as [m q|m e'|m e'|m e'|m]; csimpl in *;
      rewrite ?decide_False by done; done.
Qed.

Lemma failed_plays_done tasks ctx :
  Forall (λ t, pt_pending t = 0) tasks →
  failed_plays (omap (pt_played ctx) tasks) = omap pt_sent tasks.
Proof.
  induction 1 as [|t tasks Ht _ IH]; [done|]. unfold failed_plays in *.
  destruct t as [m q|m e'|m e'|m [e'|]|m]; csimpl in *; try done.
  by rewrite IH.
Qed.

Lemma pt_sent_names tasks :
  (omap pt_sent tasks).*1 `sublist_of` pt_name <$> tasks.
Proof.
  induction tasks as [|t tasks IH]; csimpl; [done|].
  destruct t as [m q|m e'|m [e'|]|m [e'|]|m]; csimpl;
    (by apply sublist_skip) || (by apply sublist_cons).
Qed.

Lemma pt_sent_done tasks n e :
  Forall (λ t, pt_pending t = 0) tasks →
  (n, e) ∈ omap pt_sent tasks ↔ PtDone n (Some e) ∈ tasks.
Proof.
  intros Hdone. rewrite list_elem_of_omap. split.
  - intros (t & Hin & Ht).
    pose proof (proj1 (Forall_forall _ _) Hdone _ Hin) as Hp.
    destruct t as [m q|m e'|m e'|m [e'|]|m]; simpl in *; try done.
    by inversion Ht; subst.
  - intros Hin. by exists (PtDone n (Some e)).
Qed.

Lemma done_task tasks n :
  Forall (λ t, pt_pending t = 0) tasks →
  n ∈ pt_name <$> tasks → ∃ e, PtDone n e ∈ tasks.
Proof.
  intros Hdone Hn. apply list_elem_of_fmap in Hn as (t & -> & Hin).
  pose proof (proj1 (Forall_forall _ _) Hdone _ Hin) as Hp.
  destruct t as [m q|m e'|m e'|m e'|m]; simpl in *; try done.
  by exists e'.
Qed.
End PlayLog.

(** ** Play has returned *)

Section PlayReturn.
Context {W : Type}.
Implicit Types (s : Stage (W * list Event)).
Implicit Types (order : list (string * Player (W * list Event))).
Implicit Types (c : play_state (W * list Event)).

Lemma play_returned_spec s order ctx sched wl c r :
  spied s → ranges s order → beenSetup s = true →
  play_run s order ctx sched (play_init wl) = Some c →
  ps_main c = PmReturned r →
  ∃ d m,
    (ps_world c).2 = wl.2 ++ d ∧
    pt_name <$> ps_tasks c = order.*1 ∧
    Forall (λ t, pt_pending t = 0) (ps_tasks c) ∧
    r = match failed_plays d with [] => None | _ => Some (ErrPlay m) end ∧
    size m = length (failed_plays d) ∧
    length (failed_plays d) ≤ size (players s) ∧
    NoDup (failed_plays d).*1 ∧
    (∀ n e, (n, e) ∈ failed_plays d ↔ m !! n = Some e) ∧
    (∀ n, is_Some (players s !! n) → plays n d = [(ctx, m !! n)]) ∧
    (∀ n, players s !! n = None → plays n d = [] ∧ m !! n = None).
Proof.
  intros Hs Hr Hb Hrun Hm.
  destruct (play_run_ready s order ctx sched wl c Hr Hb Hrun)
    as [[_ ->]|(rest & -> & Hrest & Hinv)]; [done|].
  pose proof (spied_ranges s order Hs Hr) as Hsp.
  destruct (play_run_log s order ctx rest wl.2 _ c Hsp
              (play_inv_entered s order wl Hr)
              (play_log_inv_entered s order ctx wl) Hrest)
    as (d & Hlog & Hd).
  destruct (play_inv_returned order c r Hinv Hm) as (Hnames & Hdone & Hret).
  pose proof (pi_echan _ _ Hinv) as Hech.
  pose proof (ranges_NoDup s order Hr) as Hnd. rewrite <- Hnames in Hnd.
  assert (failed_plays d ≡ₚ ps_echan c) as Hfd.
  { unfold failed_plays. rewrite Hd. fold (failed_plays (omap (pt_played ctx) (ps_tasks c))).
    by rewrite failed_plays_done, Hech. }
  assert (NoDup (ps_echan c).*1) as Hnde.
  { rewrite Hech. eapply sublist_NoDup; [exact Hnd|apply pt_sent_names]. }
  assert (∀ n e, PtDone n e ∈ ps_tasks c →
                 (list_to_map (ps_echan c) : gmap string error) !! n = e) as Hlook.
  { intros n e Hin. destruct e as [e|].
    - apply elem_of_list_to_map; [done|]. rewrite Hech.
      by apply pt_sent_done.
    - apply not_elem_of_list_to_map. intros Hn.
      apply list_elem_of_fmap in Hn as ([n' e'] & -> & Hin').
      rewrite Hech in Hin'. apply pt_sent_done in Hin'; [|done]. simpl in *.
      by pose proof (NoDup_fmap_elem_eq pt_name _ _ _ Hnd Hin Hin' eq_refl). }
  exists d, (list_to_map (ps_echan c)).
  split; [done|]. split; [done|]. split; [done|].
  split; [|split; [|split; [|split; [|split; [|split]]]]].
  - rewrite Hret, (drain_NoDup _ Hnde).
    destruct (failed_plays d) as [|x l] eqn:E1; destruct (ps_echan c) as [|y k] eqn:E2;
      try done.
    + by apply Permutation_nil_cons in Hfd.
    + symmetry in Hfd. by apply Permutation_nil_cons in Hfd.
  - rewrite map_size_list_to_map by done. by rewrite Hfd.
  - rewrite Hfd, Hech, <- (ranges_length s order Hr).
    rewrite <- (length_fmap fst order), <- Hnames, length_fmap.
    apply omap_length_le.
  - by rewrite Hfd.
  - intros n e. rewrite Hfd. by apply elem_of_list_to_map.
  - intros n Hn. apply (ranges_names s order n Hr) in Hn.
    rewrite <- Hnames in Hn.
    destruct (done_task _ n Hdone Hn) as [e He].
    rewrite (Hlook n e He).
    apply Permutation_singleton_r.
    rewrite <- (plays_done (ps_tasks c) ctx n e Hnd He).
    unfold plays. by rewrite Hd.
  - intros n Hn. split.
    + apply Permutation_nil_r.
      rewrite <- (plays_absent (ps_tasks c) ctx n).
      * unfold plays. by rewrite Hd.
      * rewrite Hnames.
        intros Hin. apply (ranges_names s order n Hr) in Hin.
        rewrite Hn in Hin. by destruct Hin.
    + apply not_elem_of_list_to_map. rewrite Hech. intros Hin.
      assert (n ∈ pt_name <$> ps_tasks c) as Hin'.
      { eapply elem_of_sublist; [exact Hin|apply pt_sent_names]. }
      rewrite Hnames in Hin'. apply (ranges_names s order n Hr) in Hin'.
      rewrite Hn in Hin'. by destruct Hin'.
Qed.
End PlayReturn.

(** ** Clean *)

Section CleanMachine.
Context {W : Type}.
Implicit Types (s : Stage W) (order : list (string * Player W)).
Implicit Types (c : clean_state W) (a : action) (sched : list action).

Lemma clean_step_fuel s order a c c' :
  clean_step s order a c = Some c' →
  clean_fuel order c' < clean_fuel order c.
Proof.
  intros H. unfold clean_step in H. unfold clean_fuel.
  step_cases; try lia;
    try (rewrite sum_list_with_snoc; simpl; lia);
    match goal with
    | Hl : ?l !! ?i = Some ?x |- context [<[?i := ?y]> ?l] =>
        pose proof (sum_list_with_insert ct_fuel l i x y Hl); simpl in *; lia
    end.
Qed.

Lemma clean_inv_pending order c i t :
  clean_inv order c →
  cs_tasks c !! i = Some t → ct_pending t = 1 →
  (1 ≤ cs_wg c)%Z ∧ cs_main c ≠ CmReturned.
Proof.
  intros [_ _ _ _ Hwg Hwt] Hi Ht.
  pose proof (sum_list_with_lookup ct_pending _ _ _ Hi) as Hle.
  assert (1 ≤ cs_wg c)%Z as H1 by lia.
  split; [done|]. intros Hm. specialize (Hwt Hm). lia.
Qed.

Lemma ct_sound_insert order (tasks : list (clean_task W)) i t' :
  (∀ j t, tasks !! j = Some t → ct_sound order j t) →
  ct_sound order i t' →
  ∀ j t, <[i := t']> tasks !! j = Some t → ct_sound order j t.
Proof.
  intros Hall Ht' j t Hj. destruct (decide (i = j)) as [->|Hne].
  - destruct (decide (j < length tasks)) as [Hlt|Hge].
    + rewrite list_lookup_insert_eq in Hj by done. by inversion Hj; subst.
    + rewrite list_insert_ge in Hj by lia. by apply Hall.
  - rewrite list_lookup_insert_ne in Hj by done. by apply Hall.
Qed.

Lemma clean_step_inv s order a c c' :
  clean_inv order c →
  clean_step s order a c = Some c' →
  clean_inv order c'.
Proof.
  intros Hinv H.
  pose proof (λ i t, clean_inv_pending order c i t Hinv) as Hpend.
  destruct Hinv as [Hm Htodo Hlen Hsound Hwg Hwt].
  unfold clean_step in H. destruct c as [main tasks wg w].
  simpl in *.
  step_cases;
    try match goal with
    | Hl : tasks !! ?i = Some ?x |- context [<[?i := ?y]> tasks] =>
        pose proof (sum_list_with_insert ct_pending tasks i x y Hl) as Hsum;
        destruct (Hpend i x Hl eq_refl) as (Hpos & Hnr);
        simpl in Hsum
    end.
  - (* the loop is left *)
    constructor; simpl; done.
  - (* a goroutine is started *)
    pose proof (lookup_drop order (length tasks) 0) as Hat.
    rewrite <- Htodo, Nat.add_0_r in Hat. simpl in Hat. symmetry in Hat.
    constructor; simpl; try done.
    + rewrite length_app. simpl. rewrite Nat.add_1_r.
      rewrite (drop_S _ _ _ Hat) in Htodo. by inversion Htodo.
    + rewrite length_app. simpl. apply lookup_lt_Some in Hat. lia.
    + intros i t Hi. apply lookup_app_Some in Hi as [Hi|[Hge Hi]].
      * by apply Hsound.
      * apply list_lookup_singleton_Some in Hi as [Hz <-]. simpl.
        eexists. replace i with (length tasks) by lia. exact Hat.
    + rewrite sum_list_with_snoc. simpl. lia.
  - (* wg.Wait() returns *)
    constructor; simpl; done.
  - (* player.Clean() *)
    constructor; simpl; try done.
    + by rewrite length_insert.
    + by rewrite length_insert.
    + by apply ct_sound_insert.
    + lia.
  - (* wg.Done() on a counter that is 0 *)
    lia.
  - (* wg.Done() *)
    constructor; simpl; try done.
    + by rewrite length_insert.
    + by rewrite length_insert.
    + by apply ct_sound_insert.
    + lia.
Qed.

Lemma clean_run_app s order sched1 sched2 c :
  clean_run s order (sched1 ++ sched2) c
  = match clean_run s order sched1 c with
    | Some c1 => clean_run s order sched2 c1
    | None => None
    end.
Proof.
  revert c. induction sched1 as [|a sched1 IH]; intros c; simpl; [done|].
  destruct (clean_step s order a c); [apply IH|done].
Qed.

Lemma clean_run_inv s order sched : ∀ c c',
  clean_inv order c →
  clean_run s order sched c = Some c' →
  clean_inv order c'.
Proof.
  induction sched as [|a sched IH]; intros c c' Hinv H; simpl in H.
  - by inversion H; subst.
  - destruct (clean_step s order a c) as [c1|] eqn:Hs; [|done].
    eapply IH; [|done]. by eapply clean_step_inv.
Qed.

Lemma clean_inv_entered s order w :
  ranges s order → clean_inv order (clean_entered s order w).
Proof.
  intros Hr. apply ranges_length in Hr.
  constructor; simpl; try done.
  - lia.
  - f_equal. lia.
Qed.

Lemma clean_step_init s order a w c :
  clean_step s order a (clean_init w) = Some c →
  a = AMain ∧ c = clean_entered s order w.
Proof.
  unfold clean_step, clean_init, clean_entered. intros H.
  destruct a as [|i]; [|by rewrite lookup_nil in H]. by inversion H.
Qed.

(** A run from the entry of [Clean]. *)
Lemma clean_run_init s order sched w c :
  ranges s order →
  clean_run s order sched (clean_init w) = Some c →
  (sched = [] ∧ c = clean_init w) ∨
  (∃ rest, sched = AMain :: rest ∧
           clean_run s order rest (clean_entered s order w) = Some c ∧
           clean_inv order c).
Proof.
  intros Hr H. destruct sched as [|a rest]; cbn [clean_run] in H.
  - left. by inversion H.
  - right. destruct (clean_step s order a (clean_init w)) as [c1|] eqn:Hs;
      [|done].
    apply clean_step_init in Hs as [-> ->].
    exists rest. split; [done|]. split; [done|].
    eapply clean_run_inv; [by apply clean_inv_entered|done].
Qed.

(** No deadlock: a state of [Clean] that has not returned can take a step. *)
Lemma clean_progress s order c :
  clean_inv order c →
  cs_main c ≠ CmReturned →
  ∃ a c', clean_step s order a c = Some c'.
Proof.
  intros Hinv Hnr.
  pose proof (λ i t, clean_inv_pending order c i t Hinv) as Hpend.
  destruct Hinv as [Hm Htodo Hlen Hsound Hwg Hwt].
  destruct c as [main tasks wg w]. simpl in *.
  destruct main as [|[|[n p] todo]| |]; try done.
  - exists AMain. by eexists.
  - exists AMain. by eexists.
  - destruct (decide (wg = 0%Z)) as [Hz|Hz].
    { exists AMain. unfold clean_step. destruct (decide (wg = 0%Z)); [|done].
      by eexists. }
    simpl in Hwg.
    destruct (sum_list_with_pos ct_pending tasks) as (i & t & Hi & Ht); [lia|].
    assert (ct_pending t = 1) as Ht1 by (destruct t; simpl in *; done || lia).
    destruct (Hpend i t Hi Ht1) as (Hpos & _).
    pose proof (Hsound i t Hi) as Hs.
    exists (ATask i). unfold clean_step. rewrite Hi.
    destruct t as [q| | |]; simpl in *; try done.
    + by eexists.
    + case_decide; [lia|]. by eexists.
Qed.

(** Every state of [Clean] has a run to the return. *)
Lemma clean_terminates s order c :
  clean_inv order c →
  ∃ sched c', clean_run s order sched c = Some c' ∧ cs_main c' = CmReturned.
Proof.
  remember (clean_fuel order c) as k eqn:Hk.
  revert c Hk. induction (lt_wf k) as [k _ IH]. intros c -> Hinv.
  destruct (cs_main c) as [| | |] eqn:Hm;
    try (destruct (clean_progress s order c Hinv) as (a & c1 & Hs);
         [by rewrite Hm|];
         destruct (IH _ (clean_step_fuel _ _ _ _ _ Hs) c1 eq_refl
                      (clean_step_inv _ _ _ _ _ Hinv Hs))
           as (sched & c' & Hrun & Hret);
         exists (a :: sched), c'; simpl; by rewrite Hs).
  exists [], c. done.
Qed.

(** A state of [Clean] that has returned: one goroutine for every entry,
    and every goroutine has ended. *)
Lemma clean_inv_returned order c :
  clean_inv order c → cs_main c = CmReturned →
  length (cs_tasks c) = length order ∧
  Forall (λ t, t = CtDone) (cs_tasks c).
Proof.
  intros [_ Htodo Hlen _ Hwg Hwt] Hm.
  rewrite Hm in *. simpl in *. split.
  - symmetry in Htodo. apply drop_nil_inv in Htodo. lia.
  - specialize (Hwt eq_refl).
    assert (sum_list_with ct_pending (cs_tasks c) = 0) as Hz by lia.
    apply sum_list_with_zero in Hz.
    eapply Forall_impl; [exact Hz|]. by intros [q| | |].
Qed.
End CleanMachine.

(** ** The calls Clean makes *)

Section CleanLog.
Context {W : Type}.
Implicit Types (s : Stage (W * list Event)).
Implicit Types (order : list (string * Player (W * list Event))).
Implicit Types (c : clean_state (W * list Event)).
Implicit Types (tasks : list (clean_task (W * list Event))).
Implicit Types (names : list string).

Lemma ct_events_snoc_start tasks q : ∀ names,
  ct_events (tasks ++ [CtStart q]) names = ct_events tasks names.
Proof.
  induction tasks as [|t tasks IH]; intros [|n names]; simpl; try done.
  by rewrite IH.
Qed.

Lemma ct_events_insert_new tasks : ∀ names i q n t',
  tasks !! i = Some (CtStart q) → names !! i = Some n →
  t' = CtDefer →
  ct_events (<[i := t']> tasks) names ≡ₚ EvClean n :: ct_events tasks names.
Proof.
  induction tasks as [|t tasks IH]; intros [|m names] [|i] q n t' Hi Hn ->;
    simpl in *; try done.
  - by inversion Hi; inversion Hn; subst.
  - specialize (IH names i q n CtDefer Hi Hn eq_refl).
    destruct t; rewrite IH; [done|apply perm_swap..].
Qed.

Lemma ct_events_insert_same tasks : ∀ names i,
  tasks !! i = Some CtDefer →
  ct_events (<[i := CtDone]> tasks) names = ct_events tasks names.
Proof.
  induction tasks as [|t tasks IH]; intros [|m names] [|i] Hi;
    simpl in *; try done.
  - by inversion Hi; subst.
  - by rewrite (IH names i Hi).
Qed.

Lemma ct_events_done tasks : ∀ names,
  Forall (λ t, t = CtDone) tasks → length tasks = length names →
  ct_events tasks names = EvClean <$> names.
Proof.
  induction tasks as [|t tasks IH]; intros [|n names] Hd Hl; simpl in *;
    try done.
  apply Forall_cons in Hd as [-> Hd]. rewrite IH; [done|done|lia].
Qed.

Lemma spy_Clean_log n (p0 : Player W) (wl : W * list Event) :
  (p_Clean (spy n p0) wl).2 = wl.2 ++ [EvClean n].
Proof. done. Qed.

Lemma clean_step_log s order a c c' l0 :
  spied_entries order →
  clean_inv order c →
  clean_log_inv order l0 c →
  clean_step s order a c = Some c' →
  clean_log_inv order l0 c'.
Proof.
  intros Hsp Hinv (d & Hlog & Hd) H.
  pose proof (λ i t, clean_inv_pending order c i t Hinv) as Hpend.
  pose proof (ci_sound _ _ Hinv) as Hsound.
  unfold clean_step in H. destruct c as [main tasks wg w].
  simpl in *.
  step_cases;
    try (exists d; split; [done|]; simpl;
         first [ done
               | by rewrite ct_events_snoc_start
               | by rewrite ct_events_insert_same ]).
  - (* player.Clean() *)
    lazymatch goal with
    | Hl : tasks !! ?i = Some (CtStart ?q) |- _ =>
        destruct (Hsound _ _ Hl) as [n Hn];
        pose proof (proj1 (Forall_forall _ _) Hsp _ (list_elem_of_lookup_2 _ _ _ Hn))
          as [p0 Hp0]; simpl in Hp0; subst q;
        exists (d ++ [EvClean n]); simpl; split;
        [ by rewrite Hlog, <- app_assoc
        | rewrite (ct_events_insert_new tasks order.*1 i (spy n p0) n CtDefer);
          [ rewrite Hd; symmetry; apply Permutation_cons_append
          | done | by rewrite list_lookup_fmap, Hn | done ] ]
    end.
  - (* wg.Done() on a counter that is 0 *)
    lazymatch goal with
    | Hl : tasks !! ?i = Some CtDefer |- _ =>
        destruct (Hpend _ _ Hl eq_refl) as [? _]; lia
    end.
Qed.

Lemma clean_run_log s order sched l0 : ∀ c c',
  spied_entries order →
  clean_inv order c →
  clean_log_inv order l0 c →
  clean_run s order sched c = Some c' →
  clean_log_inv order l0 c'.
Proof.
  induction sched as [|a sched IH]; intros c c' Hsp Hinv Hlog H; simpl in H.
  - by inversion H; subst.
  - destruct (clean_step s order a c) as [c1|] eqn:Hs; [|done].
    eapply IH; [done| | |done].
    + by eapply clean_step_inv.
    + by eapply clean_step_log.
Qed.

Lemma clean_log_inv_entered s order (wl : W * list Event) :
  clean_log_inv order wl.2 (clean_entered s order wl).
Proof. exists []. simpl. by rewrite app_nil_r. Qed.
End CleanLog.

(** ** Calls of Play and Clean *)

Section PlayCalls.
Context {W : Type}.
Implicit Types (s : Stage W) (order : list (string * Player W)).

Lemma Play_Some order sched s ctx (w : W) o w' :
  Play order sched s ctx w = Some (o, w') ↔
  ∃ c, play_run s order ctx sched (play_init w) = Some c ∧
       play_outcome c = Some o ∧ ps_world c = w'.
Proof.
  unfold Play. split.
  - destruct (play_run s order ctx sched (play_init w)) as [c|]; [|done].
    destruct (play_outcome c) as [o'|] eqn:Ho; [|done].
    intros [= <- <-]. by exists c.
  - intros (c & -> & -> & <-). done.
Qed.

Lemma play_outcome_Returned (c : play_state W) r :
  play_outcome c = Some (Returned r) ↔ ps_main c = PmReturned r.
Proof.
  unfold play_outcome. destruct (ps_main c); split; intros H; by simplify_eq.
Qed.

Lemma play_run_enter s order ctx sched (w : W) :
  beenSetup s = true →
  play_run s order ctx (AMain :: sched) (play_init w)
  = play_run s order ctx sched (play_entered s order w).
Proof. intros Hb. simpl. by rewrite Hb. Qed.

(** On a ready stage every run of [Play] can be continued to a return. *)
Lemma Play_completes s order ctx sched (w : W) c :
  ranges s order →
  beenSetup s = true →
  play_run s order ctx sched (play_init w) = Some c →
  ∃ sched' r w', Play order (sched ++ sched') s ctx w = Some (Returned r, w').
Proof.
  intros Hrg Hb Hrun.
  destruct (play_run_ready s order ctx sched w c Hrg Hb Hrun)
    as [[-> ->]|(rest & -> & Hrest & Hinv)].
  - destruct (play_terminates s order ctx _ (play_inv_entered s order w Hrg))
      as (sched' & c' & r & Hrun' & Hr).
    exists (AMain :: sched'), r, (ps_world c'). apply Play_Some. exists c'.
    rewrite app_nil_l, play_run_enter by done.
    split; [done|]. split; [|done]. by apply play_outcome_Returned.
  - destruct (play_terminates s order ctx c Hinv)
      as (sched' & c' & r & Hrun' & Hr).
    exists sched', r, (ps_world c'). apply Play_Some. exists c'.
    rewrite play_run_app, Hrun. split; [done|]. split; [|done].
    by apply play_outcome_Returned.
Qed.

(** On a ready stage [Play] does not panic. *)
Lemma Play_ready_no_panic s order ctx sched (w : W) o w' :
  ranges s order →
  beenSetup s = true →
  Play order sched s ctx w = Some (o, w') → ∃ r, o = Returned r.
Proof.
  intros Hrg Hb H. apply Play_Some in H as (c & Hrun & Ho & _).
  destruct (play_run_ready s order ctx sched w c Hrg Hb Hrun)
    as [[-> ->]|(rest & -> & Hrest & Hinv)]; [done|].
  destruct (pi_main _ _ Hinv) as [_ Hnp]. unfold play_outcome in Ho.
  destruct (ps_main c); simplify_eq. by eexists.
Qed.

(** On a stage that is not ready [Play] panics at once. *)
Lemma Play_unready s order ctx (w : W) :
  beenSetup s = false →
  Play order [AMain] s ctx w = Some (Panicked, w) ∧
  ∀ sched o w', Play order sched s ctx w = Some (o, w') →
                o = Panicked ∧ w' = w.
Proof.
  intros Hb. split.
  - unfold Play. simpl. by rewrite Hb.
  - intros sched o w' H. apply Play_Some in H as (c & Hrun & Ho & <-).
    destruct (play_run_unready s order ctx sched w c Hb Hrun)
      as [[-> ->]|[-> ->]]; [done|].
    simpl in *. by inversion Ho.
Qed.
End PlayCalls.

Section CleanCalls.
Context {W : Type}.
Implicit Types (s : Stage W) (order : list (string * Player W)).

Lemma Clean_Some order sched s (w : W) w' :
  Clean order sched s w = Some w' ↔
  ∃ c, clean_run s order sched (clean_init w) = Some c ∧
       cs_main c = CmReturned ∧ cs_world c = w'.
Proof.
  unfold Clean. split.
  - destruct (clean_run s order sched (clean_init w)) as [c|]; [|done].
    destruct (cs_main c) eqn:Hm; try done.
    intros [= <-]. by exists c.
  - intros (c & -> & -> & <-). done.
Qed.

(** Every run of [Clean] can be continued to the return. *)
Lemma Clean_completes s order sched (w : W) c :
  ranges s order →
  clean_run s order sched (clean_init w) = Some c →
  ∃ sched' w', Clean order (sched ++ sched') s w = Some w'.
Proof.
  intros Hrg Hrun.
  destruct (clean_run_init s order sched w c Hrg Hrun)
    as [[-> ->]|(rest & -> & Hrest & Hinv)].
  - destruct (clean_terminates s order _ (clean_inv_entered s order w Hrg))
      as (sched' & c' & Hrun' & Hr).
    exists (AMain :: sched'), (cs_world c'). apply Clean_Some. by exists c'.
  - destruct (clean_terminates s order c Hinv) as (sched' & c' & Hrun' & Hr).
    exists sched', (cs_world c'). apply Clean_Some. exists c'.
    by rewrite clean_run_app, Hrun.
Qed.
End CleanCalls.

(** ** Spies do not change what a stage does *)

Section Spies.
Context {W : Type}.
Implicit Types (s : Stage W) (order : list (string * Player W)).

Lemma spied_spy_stage s : spied (spy_stage s).
Proof.
  intros n p H. unfold spy_stage in H. simpl in H.
  rewrite map_lookup_imap in H.
  destruct (players s !! n) as [p0|]; simpl in H; [|done].
  inversion H. by exists p0.
Qed.

Lemma spy_entry_fst order : (spy_entry <$> order).*1 = order.*1.
Proof. rewrite <- list_fmap_compose. by apply list_fmap_ext. Qed.

Lemma ranges_spy_stage s order :
  ranges s order → ranges (spy_stage s) (spy_entry <$> order).
Proof.
  intros Hr. unfold ranges. apply NoDup_Permutation.
  - apply (NoDup_fmap_1 fst). rewrite spy_entry_fst.
    by apply (ranges_NoDup s).
  - apply NoDup_map_to_list.
  - intros [n p]. rewrite elem_of_map_to_list. unfold spy_stage. simpl.
    rewrite map_lookup_imap, list_elem_of_fmap. split.
    + intros ([m q] & [= -> ->] & Hin).
      apply (ranges_elem_of s order m q Hr) in Hin. by rewrite Hin.
    + destruct (players s !! n) as [q|] eqn:Hq; simpl; [|done].
      intros [= <-]. exists (n, q). split; [done|].
      by apply (ranges_elem_of s order n q Hr).
Qed.

Lemma size_spy_stage s : size (players (spy_stage s)) = size (players s).
Proof.
  destruct (ranges_exists s) as [order Hr].
  rewrite <- (ranges_length s order Hr).
  rewrite <- (ranges_length _ _ (ranges_spy_stage s order Hr)).
  by rewrite length_fmap.
Qed.

(** Under spies [Play] takes the same steps. *)
Lemma play_step_spy s order ctx a (c c' : play_state W) l :
  play_step s order ctx a c = Some c' →
  ∃ l', play_step (spy_stage s) (spy_entry <$> order) ctx a (spy_play_state l c)
        = Some (spy_play_state l' c').
Proof.
  destruct c as [main tasks wg cap echan closed w].
  unfold play_step, spy_play_state. rewrite size_spy_stage.
  change (beenSetup (spy_stage s)) with (beenSetup s).
  cbn [ps_main ps_tasks ps_wg ps_cap ps_echan ps_closed ps_world].
  destruct a as [|i].
  - destruct main as [|[|[n p] todo]| | |r|]; cbn [spy_play_main fmap list_fmap];
      intros H; repeat case_match; simplify_eq;
      cbn [ps_main ps_tasks ps_wg ps_cap ps_echan ps_closed ps_world spy_play_main];
      rewrite ?fmap_app; try by eexists.
    unfold spy_entry in *. simplify_eq. by exists l.
  - rewrite list_lookup_fmap.
    destruct (tasks !! i) as [[n p|n [e|]|n e|n e|n]|];
      cbn [fmap option_fmap option_map spy_play_task]; intros H; try done.
    + cbn [spy p_Play fst snd].
      destruct (p_Play p ctx w) as [e w'] eqn:Hp. simplify_eq.
      exists (l ++ [EvPlay n ctx e]).
      cbn [ps_main ps_tasks ps_wg ps_cap ps_echan ps_closed ps_world].
      by rewrite list_fmap_insert.
    + repeat case_match; simplify_eq; exists l;
        cbn [ps_main ps_tasks ps_wg ps_cap ps_echan ps_closed ps_world];
        by rewrite list_fmap_insert.
    + simplify_eq. exists l.
      cbn [ps_main ps_tasks ps_wg ps_cap ps_echan ps_closed ps_world].
      by rewrite list_fmap_insert.
    + repeat case_match; simplify_eq; exists l;
        cbn [ps_main ps_tasks ps_wg ps_cap ps_echan ps_closed ps_world];
        by rewrite list_fmap_insert.
Qed.

Lemma play_run_spy s order ctx sched : ∀ (c c' : play_state W) l,
  play_run s order ctx sched c = Some c' →
  ∃ l', play_run (spy_stage s) (spy_entry <$> order) ctx sched (spy_play_state l c)
        = Some (spy_play_state l' c').
Proof.
  induction sched as [|a sched IH]; intros c c' l H; cbn [play_run] in *.
  - inversion H; subst. by exists l.
  - destruct (play_step s order ctx a c) as [c1|] eqn:Hs; [|done].
    destruct (play_step_spy s order ctx a c c1 l Hs) as [l1 ->].
    by apply IH.
Qed.

(** Under spies a run of [Play] ends the same way, and leaves the same world
    with a log. *)
Lemma Play_spy s order sched ctx (w : W) o w' l :
  Play order sched s ctx w = Some (o, w') →
  ∃ l', Play (spy_entry <$> order) sched (spy_stage s) ctx (w, l)
        = Some (o, (w', l')).
Proof.
  intros H. apply Play_Some in H as (c & Hrun & Ho & <-).
  destruct (play_run_spy s order ctx sched _ c l Hrun) as [l' Hrun'].
  exists l'. apply Play_Some. exists (spy_play_state l' c).
  split; [exact Hrun'|]. split; [|done].
  unfold play_outcome in *. simpl. by destruct (ps_main c).
Qed.
End Spies.

Section CleanSpies.
Context {W : Type}.
Implicit Types (s : Stage W) (order : list (string * Player W)).

Lemma clean_step_spy s order a (c c' : clean_state W) l :
  (∀ n p rest, cs_main c = CmLoop ((n, p) :: rest) →
               order !! length (cs_tasks c) = Some (n, p)) →
  clean_step s order a c = Some c' →
  ∃ l', clean_step (spy_stage s) (spy_entry <$> order) a
          (spy_clean_state order.*1 l c)
        = Some (spy_clean_state order.*1 l' c').
Proof.
  destruct c as [main tasks wg w]. intros Hat.
  unfold clean_step, spy_clean_state. rewrite size_spy_stage.
  cbn [cs_main cs_tasks cs_wg cs_world] in *.
  destruct a as [|i].
  - destruct main as [|[|[n p] todo]| |]; cbn [spy_clean_main fmap list_fmap];
      intros H; repeat case_match; simplify_eq;
      cbn [cs_main cs_tasks cs_wg cs_world spy_clean_main];
      try by eexists.
    unfold spy_entry in *. simplify_eq. exists l. do 3 f_equal.
    rewrite imap_app. f_equal. simpl. rewrite Nat.add_0_r.
    rewrite list_lookup_fmap, (Hat _ _ _ eq_refl). done.
  - rewrite list_lookup_imap.
    destruct (tasks !! i) as [[p| | |]|];
      cbn [fmap option_fmap option_map spy_clean_task]; intros H; try done.
    + simplify_eq. eexists.
      cbn [cs_main cs_tasks cs_wg cs_world spy p_Clean fst snd].
      by rewrite imap_insert.
    + repeat case_match; simplify_eq; exists l;
        cbn [cs_main cs_tasks cs_wg cs_world];
        by rewrite imap_insert.
Qed.

Lemma clean_inv_next order (c : clean_state W) n p rest :
  clean_inv order c →
  cs_main c = CmLoop ((n, p) :: rest) →
  order !! length (cs_tasks c) = Some (n, p).
Proof.
  intros Hinv Hm. pose proof (ci_todo _ _ Hinv) as Htodo.
  rewrite Hm in Htodo. simpl in Htodo.
  pose proof (lookup_drop order (length (cs_tasks c)) 0) as Hat.
  by rewrite <- Htodo, Nat.add_0_r in Hat.
Qed.

Lemma clean_run_spy s order sched : ∀ (c c' : clean_state W) l,
  clean_inv order c →
  clean_run s order sched c = Some c' →
  ∃ l', clean_run (spy_stage s) (spy_entry <$> order) sched
          (spy_clean_state order.*1 l c)
        = Some (spy_clean_state order.*1 l' c').
Proof.
  induction sched as [|a sched IH]; intros c c' l Hinv H; cbn [clean_run] in *.
  - inversion H; subst. by exists l.
  - destruct (clean_step s order a c) as [c1|] eqn:Hs; [|done].
    destruct (clean_step_spy s order a c c1 l) as [l1 ->]; [|done|].
    + intros n p rest. by apply clean_inv_next.
    + apply IH; [|done]. by eapply clean_step_inv.
Qed.

(** Under spies a run of [Clean] leaves the same world with a log. *)
Lemma Clean_spy s order sched (w : W) w' l :
  ranges s order →
  Clean order sched s w = Some w' →
  ∃ l', Clean (spy_entry <$> order) sched (spy_stage s) (w, l) = Some (w', l').
Proof.
  intros Hr H. apply Clean_Some in H as (c & Hrun & Hm & <-).
  destruct (clean_run_init s order sched w c Hr Hrun)
    as [[-> ->]|(rest & -> & Hrest & Hinv)]; [done|].
  destruct (clean_run_spy s order rest _ c l (clean_inv_entered s order w Hr) Hrest)
    as [l' Hrun'].
  exists l'. apply Clean_Some. exists (spy_clean_state order.*1 l' c).
  split; [|split; [by simpl; rewrite Hm|done]].
  cbn [clean_run]. unfold clean_step, clean_init.
  rewrite size_spy_stage. exact Hrun'.
Qed.
End CleanSpies.

Section SetupSpies.
Context {W : Type}.
Implicit Types (s : Stage W) (order pre : list (string * Player W)).

Lemma setups_ok_spy order : ∀ (w w1 : W) l,
  setups_ok order w = Some w1 →
  ∃ l', setups_ok (spy_entry <$> order) (w, l) = Some (w1, l').
Proof.
  induction order as [|[n p] order IH]; intros w w1 l H; simpl in *.
  - inversion H. by exists l.
  - destruct (p_Setup p w) as [[e|] w'] eqn:Hp; [done|]. by apply IH.
Qed.

Lemma clean_good_spy pre : ∀ (w : W) l,
  (clean_good (spy_entry <$> pre).*2 (w, l)).1 = clean_good pre.*2 w.
Proof.
  unfold clean_good.
  induction pre as [|[n p] pre IH]; intros w l; simpl; [done|]. by rewrite IH.
Qed.

(** Under spies [Setup] returns the same, and leaves the same world with a
    log. *)
Lemma Setup_spy s order (w : W) r s' w' l :
  Setup order s w = (r, s', w') →
  ∃ l', Setup (spy_entry <$> order) (spy_stage s) (w, l)
        = (r, spy_stage s', (w', l')).
Proof.
  intros H.
  destruct (setups_ok_or_first_failure order w)
    as [[w1 H1]|(pre & n & p & post & w1 & e & w2 & -> & H1 & H2)].
  - rewrite (Setup_ok s order w w1 H1) in H. inversion H; subst.
    destruct (setups_ok_spy order w w' l H1) as [l' H1'].
    exists l'. by rewrite (Setup_ok _ _ _ _ H1').
  - rewrite (Setup_fail s pre n p post w w1 e w2 H1 H2) in H.
    inversion H; subst.
    destruct (setups_ok_spy pre w w1 l H1) as [l1 H1'].
    rewrite fmap_app, fmap_cons.
    change (spy_entry (n, p)) with (n, spy n p).
    assert (p_Setup (spy n p) (w1, l1)
            = (Some e, (w2, l1 ++ [EvSetup n (Some e)]))) as H2'.
    { simpl. by rewrite H2. }
    rewrite (Setup_fail _ _ _ _ _ _ _ _ _ H1' H2').
    exists (clean_good (spy_entry <$> pre).*2 (w2, l1 ++ [EvSetup n (Some e)])).2.
    f_equal.
    rewrite <- (clean_good_spy pre w2 (l1 ++ [EvSetup n (Some e)])).
    by destruct (clean_good _ _).
Qed.
End SetupSpies.

(** * Stages whose players are spies *)

(** ** Setup *)

Section SetupSpied.
Context {W : Type}.
Implicit Types (s : Stage (W * list Event)).
Implicit Types (order pre post : list (string * Player (W * list Event))).
Implicit Types (wl : W * list Event).

Lemma setups_app m (l1 l2 : list Event) :
  setups m (l1 ++ l2) = setups m l1 ++ setups m l2.
Proof. apply omap_app. Qed.

Lemma cleans_app m (l1 l2 : list Event) :
  cleans m (l1 ++ l2) = cleans m l1 ++ cleans m l2.
Proof. apply omap_app. Qed.

Lemma setups_of_setup_events (names : list string) m :
  NoDup names →
  setups m ((λ n, EvSetup n None) <$> names)
  = if decide (m ∈ names) then [None] else [].
Proof.
  intros Hnd. unfold setups. destruct (decide (m ∈ names)) as [Hin|Hout].
  - apply (omap_fmap_once _ _ names m); [done|done|by rewrite decide_True|].
    intros n _ Hne. by rewrite decide_False.
  - apply omap_fmap_none. intros n Hn. rewrite decide_False; [done|].
    by intros ->.
Qed.

Lemma cleans_of_clean_events (names : list string) m :
  NoDup names →
  cleans m (EvClean <$> names) = if decide (m ∈ names) then [()] else [].
Proof.
  intros Hnd. unfold cleans. destruct (decide (m ∈ names)) as [Hin|Hout].
  - apply (omap_fmap_once _ _ names m); [done|done|by rewrite decide_True|].
    intros n _ Hne. by rewrite decide_False.
  - apply omap_fmap_none. intros n Hn. rewrite decide_False; [done|].
    by intros ->.
Qed.

Lemma cleans_of_setup_events (names : list string) m :
  cleans m ((λ n, EvSetup n None) <$> names) = [].
Proof. unfold cleans. by apply omap_fmap_none. Qed.

Lemma setups_of_clean_events (names : list string) m :
  setups m (EvClean <$> names) = [].
Proof. unfold setups. by apply omap_fmap_none. Qed.

(** What [Setup] logs when the setup of every registered player succeeds. *)
Lemma Setup_all_succeed_spied s order wl wl1 :
  spied s → ranges s order →
  setups_ok order wl = Some wl1 →
  ∃ s' d,
    Setup order s wl = (None, s', (wl1.1, wl.2 ++ d)) ∧
    beenSetup s' = true ∧ players s' = players s ∧
    (∀ n, is_Some (players s !! n) → setups n d = [None] ∧ cleans n d = []) ∧
    (∀ order' sched ctx wl0 o wl',
        ranges s' order' →
        Play order' sched s' ctx wl0 = Some (o, wl') → ∃ r, o = Returned r).
Proof.
  intros Hs Hr Hok.
  exists (mkStage (players s) true), ((λ n, EvSetup n None) <$> order.*1).
  split; [|split; [done|split; [done|split]]];
    [| |intros order' sched ctx wl0 o wl' Hr' H;
        by apply (Play_ready_no_panic (mkStage (players s) true)
                    _ _ _ _ _ _ Hr' eq_refl H)].
  - rewrite (Setup_ok s order wl wl1 Hok). f_equal.
    rewrite <- (setups_ok_log order wl wl1 (spied_ranges s order Hs Hr) Hok).
    by destruct wl1.
  - intros n Hn. apply (ranges_names s order n Hr) in Hn.
    rewrite setups_of_setup_events by exact (ranges_NoDup s order Hr).
    rewrite decide_True by done. by rewrite cleans_of_setup_events.
Qed.

(** What [Setup] logs when the setups of [pre] succeed and the next one
    returns an error. *)
Lemma Setup_first_failure_spied s order pre n p post wl wl1 e wl2 :
  spied s → ranges s order →
  order = pre ++ (n, p) :: post →
  setups_ok pre wl = Some wl1 →
  p_Setup p wl1 = (Some e, wl2) →
  ∃ w' d,
    Setup order s wl = (Some (ErrSetup n e), s, (w', wl.2 ++ d)) ∧
    (∀ m, m ∈ pre.*1 → setups m d = [None] ∧ cleans m d = [()]) ∧
    (setups n d = [Some e] ∧ cleans n d = []) ∧
    (∀ m, m ∈ post.*1 → setups m d = [] ∧ cleans m d = []).
Proof.
  intros Hs Hr -> Hok Hp.
  pose proof (spied_ranges s _ Hs Hr) as Hsp.
  apply Forall_app in Hsp as [Hpre Hrest].
  apply Forall_cons in Hrest as [[p0 Hp0] _]. simpl in Hp0. subst p.
  pose proof (ranges_NoDup s _ Hr) as Hnd.
  rewrite fmap_app, fmap_cons in Hnd. simpl in Hnd.
  apply NoDup_app in Hnd as (Hnd1 & Hdisj & Hnd2).
  apply NoDup_cons in Hnd2 as [Hn_post Hnd2].
  assert (Hn_pre : n ∉ pre.*1).
  { intros Hin. apply (Hdisj n Hin). by left. }
  exists (clean_good pre.*2 wl2).1.
  exists (((λ m, EvSetup m None) <$> pre.*1) ++ [EvSetup n (Some e)]
          ++ (EvClean <$> pre.*1)).
  split; [|split; [|split]].
  - rewrite (Setup_fail s pre n (spy n p0) post wl wl1 e wl2 Hok Hp).
    f_equal.
    pose proof (clean_good_log pre wl2 Hpre) as Hc.
    rewrite (spy_Setup_log n p0 wl1 (Some e) wl2 Hp) in Hc.
    rewrite (setups_ok_log pre wl wl1 Hpre Hok) in Hc.
    rewrite <- !app_assoc in Hc. rewrite <- Hc.
    by destruct (clean_good pre.*2 wl2).
  - intros m Hm.
    assert (m ≠ n) as Hne by (by intros ->).
    rewrite !setups_app, !cleans_app.
    rewrite setups_of_setup_events, cleans_of_setup_events by done.
    rewrite setups_of_clean_events, cleans_of_clean_events by done.
    rewrite !decide_True by done. simpl.
    by rewrite decide_False by done.
  - rewrite !setups_app, !cleans_app.
    rewrite setups_of_setup_events, cleans_of_setup_events by done.
    rewrite setups_of_clean_events, cleans_of_clean_events by done.
    rewrite !decide_False by done. simpl.
    by rewrite decide_True by done.
  - intros m Hm.
    assert (m ≠ n) as Hne by (by intros ->).
    assert (m ∉ pre.*1) as Hout.
    { intros Hin. apply (Hdisj m Hin). by right. }
    rewrite !setups_app, !cleans_app.
    rewrite setups_of_setup_events, cleans_of_setup_events by done.
    rewrite setups_of_clean_events, cleans_of_clean_events by done.
    rewrite !decide_False by done. simpl.
    by rewrite decide_False by done.
Qed.
End SetupSpied.

(** ** Play and Clean *)

Section PlaySpied.
Context {W : Type}.
Implicit Types (s : Stage (W * list Event)).
Implicit Types (order : list (string * Player (W * list Event))).
Implicit Types (wl : W * list Event).

(** What a run of [Play] logs and returns. *)
Lemma Play_reports_failures_spied s order ctx wl :
  spied s → ranges s order → beenSetup s = true →
  (∃ sched r wl', Play order sched s ctx wl = Some (Returned r, wl')) ∧
  ∀ sched o wl', Play order sched s ctx wl = Some (o, wl') →
    ∃ r d, o = Returned r ∧ wl'.2 = wl.2 ++ d ∧
      let K := length (failed_plays d) in
      K ≤ size (players s) ∧
      NoDup (failed_plays d).*1 ∧
      (∀ n e, (n, e) ∈ failed_plays d ↔ plays n d = [(ctx, Some e)]) ∧
      (r = None ↔ K = 0) ∧
      (K ≠ 0 →
       ∃ m, r = Some (ErrPlay m) ∧ size m = K ∧
            (∀ n e, m !! n = Some e ↔ plays n d = [(ctx, Some e)]) ∧
            (∀ n, is_Some (players s !! n) → m !! n = None →
                  plays n d = [(ctx, None)])).
Proof.
  intros Hs Hr Hb. split.
  { destruct (Play_completes s order ctx [] wl (play_init wl) Hr Hb eq_refl)
      as (sched & r & wl' & H). by exists sched, r, wl'. }
  intros sched o wl' H.
  apply Play_Some in H as (c & Hrun & Ho & <-).
  destruct (Play_ready_no_panic s order ctx sched wl o (ps_world c) Hr Hb)
    as [r ->].
  { apply Play_Some. by exists c. }
  apply play_outcome_Returned in Ho.
  destruct (play_returned_spec s order ctx sched wl c r Hs Hr Hb Hrun Ho)
    as (d & m & Hlog & _ & _ & Hret & Hsize & Hle & Hnd & Hin & Hreg & Hunreg).
  assert (∀ n e, m !! n = Some e ↔ plays n d = [(ctx, Some e)]) as Hm.
  { intros n e. destruct (players s !! n) as [p|] eqn:Hp.
    - rewrite (Hreg n) by by eexists. split; [by intros ->|by intros [= ->]].
    - destruct (Hunreg n Hp) as [-> ->]. done. }
  exists r, d. split; [done|]. split; [done|]. simpl.
  split; [done|]. split; [done|]. split; [|split].
  - intros n e. by rewrite Hin.
  - rewrite Hret. by destruct (failed_plays d).
  - intros HK. exists m. split; [|split; [done|split; [done|]]].
    + rewrite Hret. by destruct (failed_plays d).
    + intros n Hn Hnone. by rewrite (Hreg n Hn), Hnone.
Qed.

(** The goroutines and the log when [Play] has returned. *)
Lemma Play_waits_for_every_player_spied s order ctx wl :
  spied s → ranges s order → beenSetup s = true →
  (∃ sched c r, play_run s order ctx sched (play_init wl) = Some c ∧
                ps_main c = PmReturned r) ∧
  ∀ sched c r,
    play_run s order ctx sched (play_init wl) = Some c →
    ps_main c = PmReturned r →
    pt_name <$> ps_tasks c = order.*1 ∧
    length (ps_tasks c) = size (players s) ∧
    Forall (λ t, ∃ n e, t = PtDone n e) (ps_tasks c) ∧
    ∃ d, (ps_world c).2 = wl.2 ++ d ∧
         (∀ n, is_Some (players s !! n) → ∃ e, plays n d = [(ctx, e)]) ∧
         (∀ n, players s !! n = None → plays n d = []).
Proof.
  intros Hs Hr Hb. split.
  { destruct (Play_completes s order ctx [] wl (play_init wl) Hr Hb eq_refl)
      as (sched & r & wl' & H).
    apply Play_Some in H as (c & Hrun & Ho & _).
    exists sched, c, r. split; [done|]. by apply play_outcome_Returned. }
  intros sched c r Hrun Ho.
  destruct (play_returned_spec s order ctx sched wl c r Hs Hr Hb Hrun Ho)
    as (d & m & Hlog & Hnames & Hdone & _ & _ & _ & _ & _ & Hreg & Hunreg).
  split; [done|]. split; [|split].
  - rewrite <- (ranges_length s order Hr).
    by rewrite <- (length_fmap fst order), <- Hnames, length_fmap.
  - eapply Forall_impl; [exact Hdone|].
    intros [n q|n e|n e|n e|n]; simpl; try done. by exists n, e.
  - exists d. split; [done|]. split.
    + intros n Hn. exists (m !! n). by apply Hreg.
    + intros n Hn. by destruct (Hunreg n Hn).
Qed.
End PlaySpied.

Section CleanSpied.
Context {W : Type}.
Implicit Types (s : Stage (W * list Event)).
Implicit Types (order : list (string * Player (W * list Event))).
Implicit Types (wl : W * list Event).

(** The goroutines and the log when [Clean] has returned. *)
Lemma Clean_cleans_every_player_spied s order wl :
  spied s → ranges s order →
  (∃ sched wl', Clean order sched s wl = Some wl') ∧
  (∀ r x, stage_call (s, wl) CallClean r x → r = RUnit) ∧
  ∀ sched c,
    clean_run s order sched (clean_init wl) = Some c →
    cs_main c = CmReturned →
    length (cs_tasks c) = size (players s) ∧
    Forall (λ t, t = CtDone) (cs_tasks c) ∧
    ∃ d, (cs_world c).2 = wl.2 ++ d ∧
         (∀ n, is_Some (players s !! n) → cleans n d = [()]) ∧
         (∀ n, players s !! n = None → cleans n d = []).
Proof.
  intros Hs Hr. split; [|split].
  { destruct (Clean_completes s order [] wl (clean_init wl) Hr eq_refl)
      as (sched & wl' & H). by exists sched, wl'. }
  { intros r x H. by inversion H. }
  intros sched c Hrun Hm.
  destruct (clean_run_init s order sched wl c Hr Hrun)
    as [[-> ->]|(rest & -> & Hrest & Hinv)]; [done|].
  pose proof (spied_ranges s order Hs Hr) as Hsp.
  destruct (clean_run_log s order rest wl.2 _ c Hsp
              (clean_inv_entered s order wl Hr)
              (clean_log_inv_entered s order wl) Hrest)
    as (d & Hlog & Hd).
  destruct (clean_inv_returned order c Hinv Hm) as [Hlen Hdone].
  rewrite ct_events_done in Hd by (by rewrite ?length_fmap).
  pose proof (ranges_NoDup s order Hr) as Hnd.
  split; [by rewrite Hlen, (ranges_length s order Hr)|]. split; [done|].
  exists d. split; [done|].
  assert (∀ n, cleans n d ≡ₚ if decide (n ∈ order.*1) then [()] else []) as Hc.
  { intros n. rewrite <- (cleans_of_clean_events _ n Hnd).
    unfold cleans. by rewrite Hd. }
  split.
  - intros n Hn. apply (ranges_names s order n Hr) in Hn.
    specialize (Hc n). rewrite decide_True in Hc by done.
    by apply Permutation_singleton_r.
  - intros n Hn. specialize (Hc n). rewrite decide_False in Hc.
    + by apply Permutation_nil_r.
    + intros Hin. apply (ranges_names s order n Hr) in Hin.
      rewrite Hn in Hin. by destruct Hin.
Qed.
End CleanSpied.

(** * The life cycle of a stage *)

(** ** Setup, Play and Clean *)

Section LifeCycle.
Context {W : Type}.
Implicit Types (s : Stage W) (order pre post : list (string * Player W)).
Implicit Types (w : W).

Lemma spy_stage_registered s n :
  is_Some (players (spy_stage s) !! n) ↔ is_Some (players s !! n).
Proof.
  unfold spy_stage. simpl. rewrite map_lookup_imap.
  destruct (players s !! n); simpl; split; intros [x Hx]; by eauto.
Qed.

Lemma spy_stage_unregistered s n :
  players (spy_stage s) !! n = None ↔ players s !! n = None.
Proof.
  unfold spy_stage. simpl. rewrite map_lookup_imap.
  by destruct (players s !! n).
Qed.

Lemma Play_log_spy order sched s ctx w o w' d :
  Play (spy_entry <$> order) sched (spy_stage s) ctx (w, []) = Some (o, (w', d)) →
  Play_log order sched s ctx w = d.
Proof. unfold Play_log. by intros ->. Qed.

Lemma Clean_log_spy order sched s w w' d :
  Clean (spy_entry <$> order) sched (spy_stage s) (w, []) = Some (w', d) →
  Clean_log order sched s w = d.
Proof. unfold Clean_log. by intros ->. Qed.

(** C4: when the setup of every registered player succeeds, [Setup]
    returns [nil], sets [beenSetup], and has called [Setup] exactly once
    (and [Clean] not at all) on every registered player; on the stage it
    leaves, [Play] does not panic. *)
Theorem Setup_all_succeed s order w w1 :
  ranges s order →
  setups_ok order w = Some w1 →
  ∃ s',
    Setup order s w = (None, s', w1) ∧
    beenSetup s' = true ∧ players s' = players s ∧
    (∀ n, is_Some (players s !! n) →
          setups n (Setup_log order s w) = [None] ∧
          cleans n (Setup_log order s w) = []) ∧
    (∀ order' sched ctx w0 o w',
        ranges s' order' →
        Play order' sched s' ctx w0 = Some (o, w') → ∃ r, o = Returned r).
Proof.
  intros Hr Hok.
  destruct (setups_ok_spy order w w1 [] Hok) as [l1 Hok'].
  destruct (Setup_all_succeed_spied (spy_stage s) (spy_entry <$> order)
              (w, []) (w1, l1) (spied_spy_stage s) (ranges_spy_stage s order Hr) Hok')
    as (s'' & d & Hsetup & _ & _ & Hcalls & _).
  exists (mkStage (players s) true).
  split; [by apply Setup_ok|]. split; [done|]. split; [done|]. split.
  - intros n Hn. unfold Setup_log. rewrite Hsetup. simpl.
    apply Hcalls. by apply spy_stage_registered.
  - intros order' sched ctx w0 o w' Hr' H.
    by apply (Play_ready_no_panic (mkStage (players s) true)
                _ _ _ _ _ _ Hr' eq_refl H).
Qed.

(** C1 (amended): when the setups of [pre] succeed and the next one, of
    the player registered as [n], returns [e], [Setup] returns
    [ErrSetup n e] and leaves the flag alone; it has called [Setup] once
    and [Clean] once on every player of [pre], [Setup] once and [Clean]
    not at all on [n], and nothing on the players after [n]. *)
Theorem Setup_first_failure s order pre n p post w w1 e w2 :
  ranges s order →
  order = pre ++ (n, p) :: post →
  setups_ok pre w = Some w1 →
  p_Setup p w1 = (Some e, w2) →
  let d := Setup_log order s w in
  Setup order s w = (Some (ErrSetup n e), s, clean_good pre.*2 w2) ∧
  (∀ m, m ∈ pre.*1 → setups m d = [None] ∧ cleans m d = [()]) ∧
  (setups n d = [Some e] ∧ cleans n d = []) ∧
  (∀ m, m ∈ post.*1 → setups m d = [] ∧ cleans m d = []).
Proof.
  intros Hr -> Hok Hp d.
  destruct (setups_ok_spy pre w w1 [] Hok) as [l1 Hok'].
  assert (p_Setup (spy n p) (w1, l1)
          = (Some e, (w2, l1 ++ [EvSetup n (Some e)]))) as Hp'.
  { simpl. by rewrite Hp. }
  destruct (Setup_first_failure_spied (spy_stage s)
              (spy_entry <$> pre ++ (n, p) :: post)
              (spy_entry <$> pre) n (spy n p) (spy_entry <$> post)
              (w, []) (w1, l1) e (w2, l1 ++ [EvSetup n (Some e)])
              (spied_spy_stage s) (ranges_spy_stage s _ Hr))
    as (w' & d' & Hsetup & Hpre & Hn & Hpost); [by rewrite fmap_app|done|done|].
  assert (d = d') as ->.
  { unfold d, Setup_log. by rewrite Hsetup. }
  rewrite !spy_entry_fst in *.
  split; [by apply (Setup_fail s pre n p post w w1 e w2)|done].
Qed.

(** C2: on a ready stage a call of [Play] returns, and never panics; it
    has then called [Play] exactly once, with the context given, on every
    registered player, and on no other.  With [K] the number of these calls
    that returned an error, of the [N] players registered: it returns [nil]
    exactly when [K = 0], that is when the call on every registered player
    returned [nil]; otherwise it returns an [ErrPlay] whose map has [K]
    entries and maps a name to [e] exactly when the one call of [Play] on
    the player registered under it returned [e]; a registered name that the
    map lacks is that of a player whose [Play] returned [nil]. *)
Theorem Play_reports_failures s order ctx w :
  ranges s order → beenSetup s = true →
  (∃ sched r w', Play order sched s ctx w = Some (Returned r, w')) ∧
  ∀ sched o w', Play order sched s ctx w = Some (o, w') →
    let d := Play_log order sched s ctx w in
    let K := length (failed_plays d) in
    ∃ r, o = Returned r ∧
      (∀ n, is_Some (players s !! n) → ∃ e, plays n d = [(ctx, e)]) ∧
      (∀ n, players s !! n = None → plays n d = []) ∧
      K ≤ size (players s) ∧
      NoDup (failed_plays d).*1 ∧
      (∀ n e, (n, e) ∈ failed_plays d ↔ plays n d = [(ctx, Some e)]) ∧
      (r = None ↔ K = 0) ∧
      (r = None ↔ ∀ n, is_Some (players s !! n) → plays n d = [(ctx, None)]) ∧
      (K ≠ 0 →
       ∃ m, r = Some (ErrPlay m) ∧ size m = K ∧
            (∀ n e, m !! n = Some e ↔ plays n d = [(ctx, Some e)]) ∧
            (∀ n, is_Some (players s !! n) → m !! n = None →
                  plays n d = [(ctx, None)])).
Proof.
  intros Hr Hb. split.
  { destruct (Play_completes s order ctx [] w (play_init w) Hr Hb eq_refl)
      as (sched & r & w' & H). by exists sched, r, w'. }
  intros sched o w' H d K.
  destruct (Play_spy s order sched ctx w o w' [] H) as [l' H'].
  destruct (proj2 (Play_reports_failures_spied (spy_stage s) (spy_entry <$> order)
                     ctx (w, []) (spied_spy_stage s) (ranges_spy_stage s order Hr) Hb)
              sched o (w', l') H')
    as (r & d' & -> & Hlog & Hle & Hnd & Hin & Hnil & Hmap).
  simpl in Hlog. subst l'.
  assert (d = d') as Hd
    by (by apply (Play_log_spy order sched s ctx w (Returned r) w')).
  assert ((∀ n, is_Some (players s !! n) → ∃ e, plays n d' = [(ctx, e)]) ∧
          (∀ n, players s !! n = None → plays n d' = [])) as [Hreg Hunreg].
  { pose proof H' as H2. apply Play_Some in H2 as (c & Hrun & Ho & Hw).
    apply play_outcome_Returned in Ho.
    destruct (proj2 (Play_waits_for_every_player_spied (spy_stage s)
                       (spy_entry <$> order) ctx (w, []) (spied_spy_stage s)
                       (ranges_spy_stage s order Hr) Hb) sched c r Hrun Ho)
      as (_ & _ & _ & d2 & Hd2 & Hreg & Hunreg).
    rewrite Hw in Hd2. simpl in Hd2. subst d2. split.
    - intros n Hn. apply Hreg. by apply spy_stage_registered.
    - intros n Hn. apply Hunreg. by apply spy_stage_unregistered. }
  unfold K. rewrite Hd. rewrite size_spy_stage in Hle.
  exists r. split; [done|]. split; [done|]. split; [done|]. split; [done|].
  split; [done|]. split; [done|]. split; [done|]. split.
  - rewrite Hnil. split.
    + intros HK n Hn. destruct (Hreg n Hn) as [[e|] He]; [|done].
      apply Hin in He. apply nil_length_inv in HK. rewrite HK in He.
      by apply elem_of_nil in He.
    + intros Hall. destruct (failed_plays d') as [|[n e] l] eqn:Hf; [done|].
      assert (plays n d' = [(ctx, Some e)]) as He.
      { apply Hin. by left. }
      destruct (players s !! n) as [p|] eqn:Hp.
      * rewrite (Hall n) in He by (by exists p). done.
      * by rewrite (Hunreg n Hp) in He.
  - intros HK.
    destruct (Hmap HK) as (m & -> & Hsz & Hm & Habs).
    exists m. split; [done|]. split; [done|]. split; [done|].
    intros n Hn. apply Habs. by apply spy_stage_registered.
Qed.

(** C6: on a ready stage, when [Play] has returned it has started one
    goroutine for every registered player, every one of them has ended, and
    [Play] has been called exactly once, with the context given to the
    stage, on every registered player; and [Play] does return. *)
Theorem Play_waits_for_every_player s order ctx w :
  ranges s order → beenSetup s = true →
  (∃ sched c r, play_run s order ctx sched (play_init w) = Some c ∧
                ps_main c = PmReturned r) ∧
  ∀ sched c r,
    play_run s order ctx sched (play_init w) = Some c →
    ps_main c = PmReturned r →
    let d := Play_log order sched s ctx w in
    pt_name <$> ps_tasks c = order.*1 ∧
    length (ps_tasks c) = size (players s) ∧
    Forall (λ t, ∃ n e, t = PtDone n e) (ps_tasks c) ∧
    (∀ n, is_Some (players s !! n) → ∃ e, plays n d = [(ctx, e)]) ∧
    (∀ n, players s !! n = None → plays n d = []).
Proof.
  intros Hr Hb. split.
  { destruct (Play_completes s order ctx [] w (play_init w) Hr Hb eq_refl)
      as (sched & r & w' & H).
    apply Play_Some in H as (c & Hrun & Ho & _).
    exists sched, c, r. split; [done|]. by apply play_outcome_Returned. }
  intros sched c r Hrun Hm d.
  destruct (play_run_spy s order ctx sched _ c [] Hrun) as [l' Hrun'].
  destruct (proj2 (Play_waits_for_every_player_spied (spy_stage s)
                     (spy_entry <$> order) ctx (w, [])
                     (spied_spy_stage s) (ranges_spy_stage s order Hr) Hb)
              sched (spy_play_state l' c) r Hrun')
    as (Hnames & Hlen & Hdone & d' & Hlog & Hreg & Hunreg).
  { simpl. by rewrite Hm. }
  simpl in Hlog. subst l'.
  assert (d = d') as ->.
  { apply (Play_log_spy order sched s ctx w (Returned r) (ps_world c)).
    apply Play_Some. exists (spy_play_state d' c).
    split; [done|]. split; [|done].
    unfold play_outcome. simpl. by rewrite Hm. }
  destruct (play_run_ready s order ctx sched w c Hr Hb Hrun)
    as [[-> ->]|(rest & -> & Hrest & Hinv)]; [done|].
  destruct (play_inv_returned order c r Hinv Hm) as (Hnames0 & Hdone0 & _).
  split; [done|]. split; [|split; [|split]].
  - rewrite <- (ranges_length s order Hr).
    by rewrite <- (length_fmap fst order), <- Hnames0, length_fmap.
  - eapply Forall_impl; [exact Hdone0|].
    intros [n q|n e|n e|n e|n]; simpl; try done. by exists n, e.
  - intros n Hn. apply Hreg. by apply spy_stage_registered.
  - intros n Hn. apply Hunreg. by apply spy_stage_unregistered.
Qed.

(** C7: whatever the flag of the stage, a call of [Clean] returns, with no
    error to report; when it has returned it has started one goroutine for
    every registered player, every one of them has ended, and [Clean] has
    been called exactly once on every registered player. *)
Theorem Clean_cleans_every_player s order w :
  ranges s order →
  (∃ sched w', Clean order sched s w = Some w') ∧
  (∀ r x, stage_call (s, w) CallClean r x → r = RUnit) ∧
  ∀ sched c,
    clean_run s order sched (clean_init w) = Some c →
    cs_main c = CmReturned →
    let d := Clean_log order sched s w in
    length (cs_tasks c) = size (players s) ∧
    Forall (λ t, t = CtDone) (cs_tasks c) ∧
    (∀ n, is_Some (players s !! n) → cleans n d = [()]) ∧
    (∀ n, players s !! n = None → cleans n d = []).
Proof.
  intros Hr. split; [|split].
  { destruct (Clean_completes s order [] w (clean_init w) Hr eq_refl)
      as (sched & w' & H). by exists sched, w'. }
  { intros r x H. by inversion H. }
  intros sched c Hrun Hm d.
  destruct (clean_run_init s order sched w c Hr Hrun)
    as [[-> ->]|(rest & -> & Hrest & Hinv)]; [done|].
  destruct (clean_inv_returned order c Hinv Hm) as [Hlen Hdone].
  destruct (Clean_spy s order (AMain :: rest) w (cs_world c) [] Hr) as [l' H'].
  { apply Clean_Some. by exists c. }
  pose proof H' as H''. apply Clean_Some in H'' as (c' & Hrun' & Hm' & Hw').
  destruct (proj2 (proj2 (Clean_cleans_every_player_spied (spy_stage s)
                     (spy_entry <$> order) (w, [])
                     (spied_spy_stage s) (ranges_spy_stage s order Hr)))
              (AMain :: rest) c' Hrun' Hm')
    as (_ & _ & d' & Hlog & Hreg & Hunreg).
  rewrite Hw' in Hlog. simpl in Hlog. subst l'.
  assert (d = d') as -> by (by apply (Clean_log_spy order _ s w (cs_world c))).
  split; [by rewrite Hlen, (ranges_length s order Hr)|]. split; [done|]. split.
  - intros n Hn. apply Hreg. by apply spy_stage_registered.
  - intros n Hn. apply Hunreg. by apply spy_stage_unregistered.
Qed.
End LifeCycle.

(** ** The flag, the adapter, Add and the empty stage *)

Section Histories.
Context {W : Type}.
Implicit Types (s : Stage W) (w : W) (h : list (call W * reply)).

Lemma setup_succeeded_snoc h c r :
  setup_succeeded (h ++ [(c, r)]) ↔
  setup_succeeded h ∨ (c = CallSetup ∧ r = RErr None).
Proof.
  unfold setup_succeeded. rewrite Exists_app, Exists_cons, Exists_nil.
  split; (intros [H|H]; [by left|right]).
  - destruct H as [H|[]]. by destruct c, r as [|[e|]|].
  - destruct H as [-> ->]. by left.
Qed.

Lemma stage_call_beenSetup s w c r s' w' :
  stage_call (s, w) c r (s', w') →
  beenSetup s' = true ↔ beenSetup s = true ∨ (c = CallSetup ∧ r = RErr None).
Proof.
  intros H. inversion H as [ | ? ? ? err ? ? Hr Hs | | | ]; subst; simpl;
    try (split; [by left|]; by intros [?|[? ?]]).
  destruct err as [e|].
  - apply Setup_err_stage in Hs as ->.
    split; [by left|]. by intros [?|[? ?]].
  - apply Setup_nil_iff in Hs as [_ ->].
    simpl. split; [by right|done].
Qed.

Lemma history_beenSetup x h y :
  history x h y →
  beenSetup y.1 = true ↔ beenSetup x.1 = true ∨ setup_succeeded h.
Proof.
  induction 1 as [x|x h [s w] c r [s' w'] Hh IH Hc]; simpl in *.
  - split; [by left|]. intros [?|H]; [done|]. by apply Exists_nil in H.
  - rewrite (stage_call_beenSetup s w c r s' w' Hc), IH, setup_succeeded_snoc.
    tauto.
Qed.

(** C5 (amended): [beenSetup] is false at construction; from then on it is
    true exactly when some call of [Setup] on the stage has returned [nil];
    and a call of [Setup] returns [nil], setting the flag, exactly when the
    [Setup] of every registered player returns [nil]. *)
Theorem beenSetup_iff_some_Setup_succeeded (w0 : W) :
  beenSetup (@NewStage W) = false ∧
  (∀ h s w, history (NewStage, w0) h (s, w) →
            beenSetup s = true ↔ setup_succeeded h) ∧
  (∀ s order w s' w',
      Setup order s w = (None, s', w') ↔
      setups_ok order w = Some w' ∧ s' = mkStage (players s) true).
Proof.
  split; [done|]. split.
  - intros h s w Hh. apply history_beenSetup in Hh. simpl in Hh.
    rewrite Hh. split; [by intros [?|?]|by right].
  - intros s order w s' w'. apply Setup_nil_iff.
Qed.

(** C3 (amended): on a stage on which no call of [Setup] has returned
    [nil] (none was made, or every one returned an error) a call of [Play]
    panics, and returns no error value. *)
Theorem Play_without_successful_Setup_panics (w0 : W) h s w ctx :
  history (NewStage, w0) h (s, w) →
  ¬ setup_succeeded h →
  stage_call (s, w) (CallPlay ctx) RPanic (s, w) ∧
  ∀ r x, stage_call (s, w) (CallPlay ctx) r x → r = RPanic ∧ x = (s, w).
Proof.
  intros Hh Hno.
  assert (beenSetup s = false) as Hb.
  { apply history_beenSetup in Hh. simpl in Hh.
    destruct (beenSetup s); [|done]. destruct Hh as [Hh _].
    by destruct (Hh eq_refl). }
  split.
  - destruct (ranges_exists s) as [order Hr].
    eapply sc_Play_panic; [exact Hr|].
    by apply (Play_unready s order ctx w Hb).
  - intros r x H.
    inversion H as [ | | ? ? ? ? ? ? ? Hr Hp | ? ? ? ? ? ? Hr Hp | ]; subst;
      apply (Play_unready s _ ctx w Hb) in Hp as [? ?]; by subst.
Qed.
End Histories.

Section Adapter.
Context {W : Type}.

(** C8: of a [SimplePlayer], [Setup] returns [nil] and [Clean] does
    nothing (both leave the world as it is), and [Play] returns what the
    function returns on the context given, also when it is used as a
    [Player]; so [Setup] of a stage that visits only such players returns
    [nil] and leaves the world as it is. *)
Theorem SimplePlayer_forwards (sp : SimplePlayer W) (ctx : Context) (w : W) :
  SimplePlayer_Setup sp w = (None, w) ∧
  SimplePlayer_Clean sp w = w ∧
  SimplePlayer_Play sp ctx w = sp ctx w ∧
  p_Setup (SimplePlayer_as_Player sp) w = (None, w) ∧
  p_Clean (SimplePlayer_as_Player sp) w = w ∧
  p_Play (SimplePlayer_as_Player sp) ctx w = sp ctx w ∧
  ∀ (sps : list (string * SimplePlayer W)) (s : Stage W),
    Setup ((λ np, (np.1, SimplePlayer_as_Player np.2)) <$> sps) s w
    = (None, mkStage (players s) true, w).
Proof.
  repeat (split; [done|]). intros sps s. apply Setup_ok.
  induction sps as [|[n f] sps IH]; [done|]. exact IH.
Qed.

(** C9: [Add] under a name maps the name to the new player and leaves
    every other name as it was, whether the name was registered or not; it
    has no error to return; when the name was registered the entry is
    replaced, the stage has as many players as before. *)
Theorem Add_last_write_wins (s : Stage W) (name : string) (p : Player W) (w : W) :
  players (Add name p s) !! name = Some p ∧
  (∀ n, n ≠ name → players (Add name p s) !! n = players s !! n) ∧
  beenSetup (Add name p s) = beenSetup s ∧
  (is_Some (players s !! name) →
   size (players (Add name p s)) = size (players s)) ∧
  (∀ r x, stage_call (s, w) (CallAdd name p) r x →
          r = RUnit ∧ x = (Add name p s, w)).
Proof.
  split; [apply lookup_insert_eq|]. split; [|split; [done|split]].
  - intros n Hn. by apply lookup_insert_ne.
  - intros [q Hq]. simpl.
    rewrite <- (insert_delete_eq (players s)).
    rewrite map_size_insert_None by apply lookup_delete_eq.
    rewrite <- (insert_id (players s) name q Hq) at 2.
    rewrite <- (insert_delete_eq (players s)).
    by rewrite map_size_insert_None by apply lookup_delete_eq.
  - intros r x H. by inversion H.
Qed.
End Adapter.

Section EmptyStage.
Context {W : Type}.

Lemma play_run_empty (s : Stage W) ctx sched (w : W) c :
  size (players s) = 0 →
  play_run s [] ctx sched (play_entered s [] w) = Some c →
  ps_world c = w ∧ ∀ r, ps_main c = PmReturned r → r = None.
Proof.
  intros Hsz H. unfold play_entered in H. rewrite Hsz in H.
  destruct sched as [|[|?] [|[|?] [|[|?] [|[|?] ?]]]]; simpl in H;
    simplify_eq; simpl; split; try done; by intros r [= <-].
Qed.

Lemma clean_run_empty (s : Stage W) sched (w : W) c :
  size (players s) = 0 →
  clean_run s [] sched (clean_entered s [] w) = Some c → cs_world c = w.
Proof.
  intros Hsz H. unfold clean_entered in H. rewrite Hsz in H.
  destruct sched as [|[|?] [|[|?] [|[|?] ?]]]; simpl in H;
    simplify_eq; done.
Qed.

(** C10: on a stage just constructed, with no player, [Setup] returns
    [nil] and sets the flag; then, for every context, [Play] returns [nil]
    (it has runs, and every run of it returns [nil]), and [Clean] returns
    (it has runs); the world is left as it was. *)
Theorem empty_stage_life_cycle (w : W) order :
  ranges (@NewStage W) order →
  ∃ s1,
    Setup order NewStage w = (None, s1, w) ∧
    beenSetup s1 = true ∧ players s1 = ∅ ∧
    ∀ order1, ranges s1 order1 →
      (∀ ctx,
          (∃ sched, Play order1 sched s1 ctx w = Some (Returned None, w)) ∧
          (∀ sched o w', Play order1 sched s1 ctx w = Some (o, w') →
                         o = Returned None ∧ w' = w)) ∧
      (∃ sched, Clean order1 sched s1 w = Some w) ∧
      (∀ sched w', Clean order1 sched s1 w = Some w' → w' = w).
Proof.
  intros Hr. apply ranges_NewStage in Hr as ->.
  exists (mkStage ∅ true). split; [done|]. split; [done|]. split; [done|].
  intros order1 Hr1.
  assert (order1 = []) as ->.
  { unfold ranges in Hr1. simpl in Hr1. rewrite map_to_list_empty in Hr1.
    by apply Permutation_nil_r. }
  split; [|split].
  - intros ctx. split.
    + by exists [AMain; AMain; AMain; AMain].
    + intros sched o w' H.
      destruct (Play_ready_no_panic (mkStage ∅ true) _ _ _ _ _ _ Hr1 eq_refl H)
        as [r ->].
      apply Play_Some in H as (c & Hrun & Ho & <-).
      apply play_outcome_Returned in Ho.
      destruct (play_run_ready (mkStage ∅ true) _ _ _ _ _ Hr1 eq_refl Hrun)
        as [[-> ->]|(rest & -> & Hrest & _)]; [done|].
      destruct (play_run_empty (mkStage ∅ true) _ _ _ _ (map_size_empty (M:=gmap string)) Hrest)
        as [-> Hret].
      by rewrite (Hret r Ho).
  - by exists [AMain; AMain; AMain].
  - intros sched w' H. apply Clean_Some in H as (c & Hrun & Hm & <-).
    destruct (clean_run_init _ _ _ _ _ Hr1 Hrun)
      as [[-> ->]|(rest & -> & Hrest & _)]; [done|].
    by apply (clean_run_empty (mkStage ∅ true) _ _ _ (map_size_empty (M:=gmap string))) in Hrest.
Qed.
End EmptyStage.

(** * Concrete stages *)

Section Building.
Context {W : Type}.
Implicit Types (s : Stage W) (order : list (string * Player W)).

Lemma ranges_NewStage_nil : ranges (@NewStage W) [].
Proof. unfold ranges, NewStage. simpl. by rewrite map_to_list_empty. Qed.

Lemma ranges_Add s order n p :
  players s !! n = None → ranges s order →
  ranges (Add n p s) ((n, p) :: order).
Proof.
  unfold ranges, Add. simpl. intros Hn Hr.
  rewrite map_to_list_insert by done. by rewrite Hr.
Qed.

Lemma ranges_ready s order : ranges s order → ranges (ready s) order.
Proof. done. Qed.

Lemma history_cons (x y z : Stage W * W) c r h :
  stage_call x c r y → history y h z → history x ((c, r) :: h) z.
Proof.
  intros Hc Hh. induction Hh as [y|y h u c' r' z Hh IH Hc'].
  - apply (history_snoc x [] x c r y); [constructor|done].
  - apply (history_snoc x ((c, r) :: h) u c' r' z); [by apply IH|done].
Qed.
End Building.

Lemma ranges_stage_ab : ranges stage_ab order_ab.
Proof.
  apply ranges_Add; [done|]. apply ranges_Add; [done|]. apply ranges_NewStage_nil.
Qed.

Lemma ranges_stage_abc : ranges stage_abc order_abc.
Proof.
  apply ranges_Add; [done|]. apply ranges_Add; [done|].
  apply ranges_Add; [done|]. apply ranges_NewStage_nil.
Qed.

(** The scenario of the specification: on [{"a": quiet, "b": fails_play}]
    [Setup] succeeds, then [Play] returns the map [{"b": X}]. *)
Example Setup_stage_ab :
  Setup order_ab stage_ab tt = (None, ready stage_ab, tt) ∧
  Setup_log order_ab stage_ab tt = [EvSetup "a" None; EvSetup "b" None].
Proof. split; reflexivity. Qed.

Example Play_stage_ab :
  let sched := [AMain; AMain; AMain; ATask 1; ATask 0; ATask 1; ATask 0; AMain;
                ATask 0; ATask 1; AMain; AMain] in
  Play order_ab sched (ready stage_ab) 7 tt
  = Some (Returned (Some (ErrPlay (<["b" := ErrOther "X"]> ∅))), tt) ∧
  Play_log order_ab sched (ready stage_ab) 7 tt
  = [EvPlay "b" 7 (Some (ErrOther "X")); EvPlay "a" 7 None].
Proof. split; reflexivity. Qed.

Example Clean_stage_ab :
  let sched := [AMain; AMain; AMain; ATask 1; AMain; ATask 0; ATask 0; ATask 1;
                AMain] in
  Clean order_ab sched stage_ab tt = Some tt ∧
  Clean_log order_ab sched stage_ab tt = [EvClean "b"; EvClean "a"].
Proof. split; reflexivity. Qed.

(** [Play] is blocked at [wg.Wait()] while a goroutine has not ended: this
    schedule is not a run. *)
Example Play_stage_ab_blocked :
  Play order_ab [AMain; AMain; AMain; AMain; ATask 0; ATask 0; ATask 0; AMain]
    (ready stage_ab) 7 tt
  = None.
Proof. reflexivity. Qed.

(** C1, as stated, fails: [Setup] is called on the failing player. *)
Lemma Setup_is_called_on_the_failing_player :
  ranges stage_abc order_abc ∧
  Setup order_abc stage_abc tt
  = (Some (ErrSetup "b" (ErrOther "Y")), stage_abc, tt) ∧
  Setup_log order_abc stage_abc tt
  = [EvSetup "a" None; EvSetup "b" (Some (ErrOther "Y")); EvClean "a"] ∧
  ¬ (setups "b" (Setup_log order_abc stage_abc tt) = [] ∧
     cleans "b" (Setup_log order_abc stage_abc tt) = []).
Proof.
  split; [apply ranges_stage_abc|]. split; [reflexivity|].
  split; [reflexivity|]. by intros [H _].
Qed.

Lemma Setup_first_failure_witness :
  let d := Setup_log order_abc stage_abc tt in
  Setup order_abc stage_abc tt
  = (Some (ErrSetup "b" (ErrOther "Y")), stage_abc,
     clean_good [("a", quiet)].*2 tt) ∧
  (∀ m, m ∈ [("a", quiet)].*1 → setups m d = [None] ∧ cleans m d = [()]) ∧
  (setups "b" d = [Some (ErrOther "Y")] ∧ cleans "b" d = []) ∧
  (∀ m, m ∈ [("c", quiet)].*1 → setups m d = [] ∧ cleans m d = []).
Proof.
  apply (Setup_first_failure stage_abc order_abc
           [("a", quiet)] "b" fails_setup [("c", quiet)] tt tt (ErrOther "Y") tt);
    [apply ranges_stage_abc|reflexivity..].
Defined.

Lemma Setup_all_succeed_witness :
  ∃ s',
    Setup order_ab stage_ab tt = (None, s', tt) ∧
    beenSetup s' = true ∧ players s' = players stage_ab ∧
    (∀ n, is_Some (players stage_ab !! n) →
          setups n (Setup_log order_ab stage_ab tt) = [None] ∧
          cleans n (Setup_log order_ab stage_ab tt) = []) ∧
    (∀ order' sched ctx w0 o w',
        ranges s' order' →
        Play order' sched s' ctx w0 = Some (o, w') → ∃ r, o = Returned r).
Proof.
  apply (Setup_all_succeed stage_ab order_ab tt tt);
    [apply ranges_stage_ab|reflexivity].
Defined.

Lemma Play_reports_failures_witness :
  ∃ sched r w', Play order_ab sched (ready stage_ab) 7 tt = Some (Returned r, w').
Proof.
  apply (Play_reports_failures (ready stage_ab) order_ab 7 tt);
    [apply ranges_ready, ranges_stage_ab|reflexivity].
Defined.

Lemma Play_waits_for_every_player_witness :
  ∃ sched c r,
    play_run (ready stage_ab) order_ab 7 sched (play_init tt) = Some c ∧
    ps_main c = PmReturned r.
Proof.
  apply (Play_waits_for_every_player (ready stage_ab) order_ab 7 tt);
    [apply ranges_ready, ranges_stage_ab|reflexivity].
Defined.

Lemma Clean_cleans_every_player_witness :
  ∃ sched w', Clean order_ab sched stage_ab tt = Some w'.
Proof.
  apply (Clean_cleans_every_player stage_ab order_ab tt); apply ranges_stage_ab.
Defined.

Lemma ranges_stage_once : ranges (ready stage_once) [("a", setup_once)].
Proof. apply ranges_ready, ranges_Add; [done|]. apply ranges_NewStage_nil. Qed.

(** C3, as stated, fails: the most recent call of [Setup] returned an error,
    and [Play] returns [nil]. *)
Lemma Play_after_a_failed_second_Setup_returns :
  let h := [(CallAdd "a" setup_once, RUnit);
            (CallSetup, RErr None);
            (CallSetup, RErr (Some (ErrSetup "a" (ErrOther "again"))))] in
  history (NewStage, 0) h (ready stage_once, 2) ∧
  last_Setup h = Some (RErr (Some (ErrSetup "a" (ErrOther "again")))) ∧
  stage_call (ready stage_once, 2) (CallPlay 7) (RErr None) (ready stage_once, 2) ∧
  ¬ (∀ r x, stage_call (ready stage_once, 2) (CallPlay 7) r x → r = RPanic).
Proof.
  assert (stage_call (ready stage_once, 2) (CallPlay 7) (RErr None)
            (ready stage_once, 2)) as Hplay.
  { apply (sc_Play _ _ [("a", setup_once)]
             [AMain; AMain; AMain; ATask 0; ATask 0; ATask 0; AMain; AMain]);
      [apply ranges_stage_once|reflexivity]. }
  split; [|split; [reflexivity|split; [exact Hplay|]]].
  - eapply history_cons; [apply sc_Add|].
    eapply history_cons.
    { apply (sc_Setup _ _ [("a", setup_once)]);
        [apply ranges_Add; [done|apply ranges_NewStage_nil]|reflexivity]. }
    eapply history_cons; [|apply history_nil].
    apply (sc_Setup _ _ [("a", setup_once)]);
      [apply ranges_stage_once|reflexivity].
  - intros H. by specialize (H _ _ Hplay).
Qed.

Lemma Play_without_successful_Setup_panics_witness :
  stage_call (Add "a" fails_setup NewStage, tt) (CallPlay 7) RPanic
    (Add "a" fails_setup NewStage, tt).
Proof.
  apply (Play_without_successful_Setup_panics tt
           [(CallAdd "a" fails_setup, RUnit);
            (CallSetup, RErr (Some (ErrSetup "a" (ErrOther "Y"))))]).
  - eapply history_cons; [apply sc_Add|].
    eapply history_cons; [|apply history_nil].
    apply (sc_Setup _ _ [("a", fails_setup)]);
      [apply ranges_Add; [done|apply ranges_NewStage_nil]|reflexivity].
  - intros H. unfold setup_succeeded in H.
    apply Exists_cons in H as [H|H]; [done|].
    apply Exists_cons in H as [H|H]; [done|].
    by apply Exists_nil in H.
Defined.

(** C5, as stated, fails: the flag is still set after a call of [Play] in
    which a player failed, and after a second call of [Setup] in which the
    setup of the player failed. *)
Lemma beenSetup_stays_after_a_failure :
  let s := Add "b" fails_play NewStage in
  let h := [(CallAdd "b" fails_play, RUnit);
            (CallSetup, RErr None);
            (CallPlay 7, RErr (Some (ErrPlay (<["b" := ErrOther "X"]> ∅))))] in
  let h' := [(CallAdd "a" setup_once, RUnit);
             (CallSetup, RErr None);
             (CallSetup, RErr (Some (ErrSetup "a" (ErrOther "again"))))] in
  (history (NewStage, tt) h (ready s, tt) ∧
   beenSetup (ready s) = true ∧ beenSetup_per_spec h = false) ∧
  (history (NewStage, 0) h' (ready stage_once, 2) ∧
   beenSetup (ready stage_once) = true ∧ beenSetup_per_spec h' = false).
Proof.
  split; (split; [|done]); cycle 1.
  { eapply history_cons; [apply sc_Add|].
    eapply history_cons.
    { apply (sc_Setup _ _ [("a", setup_once)]);
        [apply ranges_Add; [done|apply ranges_NewStage_nil]|reflexivity]. }
    eapply history_cons; [|apply history_nil].
    apply (sc_Setup _ _ [("a", setup_once)]);
      [apply ranges_stage_once|reflexivity]. }
  eapply history_cons; [apply sc_Add|].
  eapply history_cons.
  { apply (sc_Setup _ _ [("b", fails_play)]);
      [apply ranges_Add; [done|apply ranges_NewStage_nil]|reflexivity]. }
  eapply history_cons; [|apply history_nil].
  apply (sc_Play _ _ [("b", fails_play)]
           [AMain; AMain; AMain; ATask 0; ATask 0; ATask 0; AMain; AMain]);
    [apply ranges_ready, ranges_Add; [done|apply ranges_NewStage_nil]|reflexivity].
Qed.

Lemma beenSetup_iff_some_Setup_succeeded_witness :
  beenSetup (Add "a" fails_setup (@NewStage unit)) = true ↔
  setup_succeeded [(CallAdd "a" fails_setup, RUnit);
                   (CallSetup, RErr (Some (ErrSetup "a" (ErrOther "Y"))))].
Proof.
  apply (proj1 (proj2 (beenSetup_iff_some_Setup_succeeded tt))
           [(CallAdd "a" fails_setup, RUnit);
            (CallSetup, RErr (Some (ErrSetup "a" (ErrOther "Y"))))]
           (Add "a" fails_setup NewStage) tt).
  eapply history_cons; [apply sc_Add|].
  eapply history_cons; [|apply history_nil].
  apply (sc_Setup _ _ [("a", fails_setup)]);
    [apply ranges_Add; [done|apply ranges_NewStage_nil]|reflexivity].
Defined.

Lemma Add_last_write_wins_witness :
  players (Add "a" fails_play (Add "b" quiet (Add "a" quiet NewStage))) !! "b"
  = Some quiet ∧
  size (players (Add "a" fails_play (Add "b" quiet (Add "a" quiet NewStage)))) = 2.
Proof.
  pose proof (Add_last_write_wins (Add "b" quiet (Add "a" quiet NewStage))
                "a" fails_play tt) as (_ & Hother & _ & Hsize & _).
  split.
  - rewrite (Hother "b"); [reflexivity|done].
  - rewrite Hsize; [reflexivity|]. by exists quiet.
Defined.

Lemma empty_stage_life_cycle_witness :
  ∃ s1, Setup [] (@NewStage unit) tt = (None, s1, tt) ∧ beenSetup s1 = true.
Proof.
  destruct (empty_stage_life_cycle tt [] ranges_NewStage_nil)
    as (s1 & H1 & H2 & _).
  by exists s1.
Defined.

(** * Further properties *)

Section SetupMore.
Context {W : Type}.
Implicit Types (s : Stage W) (order pre post : list (string * Player W)).
Implicit Types (w : W).

Lemma spied_entries_spy order : spied_entries (spy_entry <$> order).
Proof.
  apply Forall_fmap, Forall_forall. intros [n p] _. by exists p.
Qed.

(** The one call of [Setup] on the player that fails, in the log. *)
Lemma Setup_fail_setups s pre n p post w w1 e w2 :
  ranges s (pre ++ (n, p) :: post) →
  setups_ok pre w = Some w1 →
  p_Setup p w1 = (Some e, w2) →
  setups n (Setup_log (pre ++ (n, p) :: post) s w) = [Some e].
Proof.
  intros Hr Hok Hp.
  destruct (setups_ok_spy pre w w1 [] Hok) as [l1 Hok'].
  assert (p_Setup (spy n p) (w1, l1)
          = (Some e, (w2, l1 ++ [EvSetup n (Some e)]))) as Hp'.
  { simpl. by rewrite Hp. }
  destruct (Setup_first_failure_spied (spy_stage s)
              (spy_entry <$> pre ++ (n, p) :: post)
              (spy_entry <$> pre) n (spy n p) (spy_entry <$> post)
              (w, []) (w1, l1) e (w2, l1 ++ [EvSetup n (Some e)])
              (spied_spy_stage s) (ranges_spy_stage s _ Hr))
    as (w0 & d1 & Hsetup & _ & [Hn _] & _); [by rewrite fmap_app|done|done|].
  unfold Setup_log. by rewrite Hsetup.
Qed.

(** X1: an error returned by [Setup] is an [ErrSetup] with the name of a
    registered player and the error that the call of [Setup] made on this
    player returned: the setups of the players visited before it returned
    [nil], its own, called in the world they left, returned this error, and
    this is the one call of [Setup] made on it.  The stage is left as it
    was, and the world as the rollback leaves it. *)
Theorem Setup_error_is_ErrSetup s order w err s' w' :
  ranges s order →
  Setup order s w = (Some err, s', w') →
  ∃ pre n p post e w1 w2,
    order = pre ++ (n, p) :: post ∧
    setups_ok pre w = Some w1 ∧
    p_Setup p w1 = (Some e, w2) ∧
    err = ErrSetup n e ∧
    players s !! n = Some p ∧
    setups n (Setup_log order s w) = [Some e] ∧
    s' = s ∧ w' = clean_good pre.*2 w2.
Proof.
  intros Hr H.
  destruct (setups_ok_or_first_failure order w)
    as [[w1 H1]|(pre & n & p & post & w1 & e & w2 & -> & H1 & H2)].
  - by rewrite (Setup_ok s order w w1 H1) in H.
  - rewrite (Setup_fail s pre n p post w w1 e w2 H1 H2) in H.
    inversion H; subst. exists pre, n, p, post, e, w1, w2.
    split; [done|]. split; [done|]. split; [done|]. split; [done|].
    split; [|split; [|done]].
    + apply (ranges_elem_of s' _ n p Hr), elem_of_app. right. by left.
    + by apply (Setup_fail_setups s' pre n p post w w1 e w2).
Qed.

(** X2: when every setup succeeds, [Setup] makes exactly the calls of
    [Setup], one after the other in the order of the iteration, and no
    other call. *)
Theorem Setup_log_success s order w w1 :
  setups_ok order w = Some w1 →
  Setup_log order s w = (λ n, EvSetup n None) <$> order.*1.
Proof.
  intros Hok. unfold Setup_log.
  destruct (setups_ok_spy order w w1 [] Hok) as [l Hok'].
  rewrite (Setup_ok _ _ _ _ Hok'). simpl.
  pose proof (setups_ok_log _ _ _ (spied_entries_spy order) Hok') as Hl.
  simpl in Hl. by rewrite Hl, spy_entry_fst.
Qed.

(** X3: when a setup fails, [Setup] has called [Setup] on the players
    before the failing one in the order of the iteration, then on the failing
    one, and only then [Clean] on the players before the failing one, in the
    order in which they were set up; it makes no other call. *)
Theorem Setup_log_failure s pre n p post w w1 e w2 :
  setups_ok pre w = Some w1 →
  p_Setup p w1 = (Some e, w2) →
  Setup_log (pre ++ (n, p) :: post) s w
  = ((λ m, EvSetup m None) <$> pre.*1) ++ [EvSetup n (Some e)]
    ++ (EvClean <$> pre.*1).
Proof.
  intros Hok Hp. unfold Setup_log.
  destruct (setups_ok_spy pre w w1 [] Hok) as [l1 Hok'].
  rewrite fmap_app, fmap_cons. change (spy_entry (n, p)) with (n, spy n p).
  assert (p_Setup (spy n p) (w1, l1)
          = (Some e, (w2, l1 ++ [EvSetup n (Some e)]))) as Hp'.
  { simpl. by rewrite Hp. }
  rewrite (Setup_fail _ _ _ _ _ _ _ _ _ Hok' Hp'). simpl.
  rewrite (clean_good_log _ _ (spied_entries_spy pre)). simpl.
  pose proof (setups_ok_log _ _ _ (spied_entries_spy pre) Hok') as Hl.
  simpl in Hl. by rewrite Hl, spy_entry_fst, <- app_assoc.
Qed.
End SetupMore.

Section PlayMore.
Context {W : Type}.
Implicit Types (s : Stage W) (order : list (string * Player W)).
Implicit Types (c : play_state W) (w : W).

(** X4: on a ready stage a goroutine of [Play] that is at its send on
    [echan] can always take it: the channel is neither full nor closed, and
    the value is appended to those buffered. *)
Theorem Play_send_never_blocks s order ctx sched w c i n e :
  ranges s order → beenSetup s = true →
  play_run s order ctx sched (play_init w) = Some c →
  ps_tasks c !! i = Some (PtGot n (Some e)) →
  ps_closed c = false ∧ length (ps_echan c) < ps_cap c ∧
  ∃ c', play_step s order ctx (ATask i) c = Some c' ∧
        ps_tasks c' = <[i := PtDefer n (Some e)]> (ps_tasks c) ∧
        ps_echan c' = ps_echan c ++ [(n, e)].
Proof.
  intros Hr Hb Hrun Hi.
  destruct (play_run_ready s order ctx sched w c Hr Hb Hrun)
    as [[-> ->]|(rest & -> & Hrest & Hinv)]; [done|].
  destruct (play_inv_pending order c i _ Hinv Hi eq_refl) as (_ & Hopen & _).
  destruct Hinv as [_ (pre & Hord & Hnames) _ Hcap _ Hech _ _ _].
  assert (length (ps_echan c) < ps_cap c) as Hroom.
  { rewrite Hech, Hcap, Hord, length_app.
    rewrite <- (length_fmap fst pre), <- Hnames, length_fmap.
    pose proof (omap_length_lt pt_sent _ i _ Hi eq_refl). lia. }
  split; [done|]. split; [done|].
  destruct c as [main tasks wg cap echan closed w0]. simpl in *.
  rewrite Hi, Hopen. rewrite decide_True by done. by eexists.
Qed.


(** X6: the synchronisation of [Play] blocks nothing but [Play] itself at
    [wg.Wait()], and only while a goroutine has not ended.  In every state a
    run of [Play] reaches on a ready stage, a goroutine whose call of the
    player's [Play] has returned can take its next step (the send, or
    passing it, and then the deferred [wg.Done()], after which it has
    ended); and [Play] itself has returned, or can take a step, or is at
    [wg.Wait()] while some goroutine it started has not ended.  Nothing is
    said of the calls of the players themselves. *)
Theorem Play_blocks_only_on_players s order ctx sched w c :
  ranges s order → beenSetup s = true →
  play_run s order ctx sched (play_init w) = Some c →
  (∀ i n e, ps_tasks c !! i = Some (PtGot n e) →
            ∃ c', play_step s order ctx (ATask i) c = Some c' ∧
                  ps_tasks c' = <[i := PtDefer n e]> (ps_tasks c)) ∧
  (∀ i n e, ps_tasks c !! i = Some (PtDefer n e) →
            ∃ c', play_step s order ctx (ATask i) c = Some c' ∧
                  ps_tasks c' = <[i := PtDone n e]> (ps_tasks c)) ∧
  ((∃ r, ps_main c = PmReturned r) ∨
   (∃ c', play_step s order ctx AMain c = Some c') ∨
   (ps_main c = PmWait ∧
    ∃ i t, ps_tasks c !! i = Some t ∧ ∀ n e, t ≠ PtDone n e)).
Proof.
  intros Hr Hb Hrun.
  destruct (play_run_ready s order ctx sched w c Hr Hb Hrun)
    as [[-> ->]|(rest & -> & Hrest & Hinv)].
  { split; [by intros i n e Hi|]. split; [by intros i n e Hi|].
    right. left. unfold play_step, play_init. rewrite Hb. by eexists. }
  pose proof (λ i t, play_inv_pending order c i t Hinv) as Hpend.
  destruct Hinv as [[Hm1 Hm2] (pre & Hord & Hnames) _ Hcap Hwg Hech _ _ _].
  destruct c as [main tasks wg cap echan closed w0]. simpl in *.
  split; [|split].
  - intros i n e Hi. rewrite Hi.
    destruct (Hpend i _ Hi eq_refl) as (_ & -> & _).
    destruct e as [e|]; [|by eexists].
    rewrite decide_True; [by eexists|].
    rewrite Hech, Hcap, Hord, length_app.
    rewrite <- (length_fmap fst pre), <- Hnames, length_fmap.
    pose proof (omap_length_lt pt_sent _ i _ Hi eq_refl). lia.
  - intros i n e Hi. rewrite Hi.
    destruct (Hpend i _ Hi eq_refl) as (Hwg1 & _).
    rewrite decide_False by lia. by eexists.
  - destruct main as [|[|[n p] todo]| | |r|]; try done.
    + right. left. by eexists.
    + right. left. by eexists.
    + destruct (decide (wg = 0%Z)) as [Hz|Hz].
      { right. left. by eexists. }
      right. right. split; [done|]. simpl in Hwg.
      destruct (sum_list_with_pos pt_pending tasks) as (i & t & Hi & Ht); [lia|].
      exists i, t. split; [done|]. intros n e ->. simpl in Ht. lia.
    + right. left. by eexists.
    + left. by exists r.
Qed.
End PlayMore.

Section CleanMore.
Context {W : Type}.
Implicit Types (s : Stage W) (order : list (string * Player W)).
Implicit Types (c : clean_state W) (w : W).

(** X7: the synchronisation of [Clean] blocks nothing but [Clean] itself
    at [wg.Wait()], and only while a goroutine has not ended.  In every
    state a run of [Clean] reaches no goroutine has panicked; a goroutine
    whose call of the player's [Clean] has returned can take its deferred
    [wg.Done()], after which it has ended; and [Clean] itself has returned,
    or can take a step, or is at [wg.Wait()] while some goroutine it started
    has not ended.  Nothing is said of the calls of the players
    themselves. *)
Theorem Clean_blocks_only_on_players s order sched w c :
  ranges s order →
  clean_run s order sched (clean_init w) = Some c →
  Forall (λ t, t ≠ CtPanic) (cs_tasks c) ∧
  (∀ i, cs_tasks c !! i = Some CtDefer →
        ∃ c', clean_step s order (ATask i) c = Some c' ∧
              cs_tasks c' = <[i := CtDone]> (cs_tasks c)) ∧
  (cs_main c = CmReturned ∨
   (∃ c', clean_step s order AMain c = Some c') ∨
   (cs_main c = CmWait ∧ ∃ i t, cs_tasks c !! i = Some t ∧ t ≠ CtDone)).
Proof.
  intros Hr Hrun.
  destruct (clean_run_init s order sched w c Hr Hrun)
    as [[-> ->]|(rest & -> & Hrest & Hinv)].
  { split; [constructor|]. split; [by intros i Hi|].
    right. left. by eexists. }
  pose proof (λ i t, clean_inv_pending order c i t Hinv) as Hpend.
  destruct Hinv as [Hm _ _ Hsound Hwg _].
  destruct c as [main tasks wg w0]. simpl in *.
  split; [|split].
  - apply Forall_lookup. intros i t Hi ->. by pose proof (Hsound i _ Hi).
  - intros i Hi. rewrite Hi.
    destruct (Hpend i _ Hi eq_refl) as [Hwg1 _].
    rewrite decide_False by lia. by eexists.
  - destruct main as [|[|[n p] todo]| |]; try done.
    + right. left. by eexists.
    + right. left. by eexists.
    + destruct (decide (wg = 0%Z)) as [Hz|Hz].
      { right. left. by eexists. }
      right. right. split; [done|]. simpl in Hwg.
      destruct (sum_list_with_pos ct_pending tasks) as (i & t & Hi & Ht); [lia|].
      exists i, t. split; [done|]. intros ->. simpl in Ht. lia.
    + by left.
Qed.
End CleanMore.

Section CleanSimple.
Context {W : Type}.
Implicit Types (s : Stage W) (order : list (string * Player W)).
Implicit Types (c : clean_state W) (w : W).

(** A step of [Clean] leaves the world as it is when the [Clean] of every
    player does. *)
Lemma clean_step_world s order a c c' :
  clean_inv order c →
  Forall (λ np, ∀ w, p_Clean np.2 w = w) order →
  clean_step s order a c = Some c' →
  cs_world c' = cs_world c.
Proof.
  intros Hinv Hid H. pose proof (ci_sound _ _ Hinv) as Hsound.
  unfold clean_step in H. destruct c as [main tasks wg w]. simpl in *.
  step_cases; try done.
  lazymatch goal with
  | Hl : tasks !! ?i = Some (CtStart ?q) |- _ =>
      destruct (Hsound i _ Hl) as [n Hn];
      apply (proj1 (Forall_lookup _ _) Hid i _ Hn)
  end.
Qed.

Lemma clean_run_world s order sched : ∀ c c',
  clean_inv order c →
  Forall (λ np, ∀ w, p_Clean np.2 w = w) order →
  clean_run s order sched c = Some c' →
  cs_world c' = cs_world c.
Proof.
  induction sched as [|a sched IH]; intros c c' Hinv Hid H; cbn [clean_run] in H.
  - by inversion H.
  - destruct (clean_step s order a c) as [c1|] eqn:Hs; [|done].
    rewrite (IH c1 c'); [|by eapply clean_step_inv|done|done].
    by eapply clean_step_world.
Qed.

(** X9: [Clean] on a stage whose players are all made from functions
    ([SimplePlayer]) leaves the world as it is, whatever the scheduler
    does. *)
Theorem Clean_of_SimplePlayers s order sched w w' :
  ranges s order →
  (∀ n p, players s !! n = Some p → ∃ sp, p = SimplePlayer_as_Player sp) →
  Clean order sched s w = Some w' → w' = w.
Proof.
  intros Hr Hsp H.
  apply Clean_Some in H as (c & Hrun & Hm & <-).
  destruct (clean_run_init s order sched w c Hr Hrun)
    as [[-> ->]|(rest & -> & Hrest & Hinv)]; [done|].
  rewrite (clean_run_world s order rest _ c (clean_inv_entered s order w Hr));
    [done| |done].
  apply Forall_forall. intros [n p] Hin w0. simpl.
  apply (ranges_elem_of s order n p Hr) in Hin.
  by destruct (Hsp n p Hin) as [sp ->].
Qed.
End CleanSimple.

Section PlayResults.
Context {W : Type}.
Implicit Types (tasks : list (play_task W)).

Lemma pt_result_done tasks :
  Forall (λ t, pt_pending t = 0) tasks →
  (omap pt_result tasks).*1 = pt_name <$> tasks.
Proof.
  induction 1 as [|t tasks Ht _ IH]; [done|].
  destruct t as [m q|m e'|m e'|m e'|m]; csimpl in *; try done.
  by rewrite IH.
Qed.
End PlayResults.

Section SpiedLogs.
Context {W : Type}.
Implicit Types (s : Stage (W * list Event)).
Implicit Types (order : list (string * Player (W * list Event))).
Implicit Types (w : W) (l : list Event).

Lemma Setup_spied_log s order w l r s' w' l' :
  spied_entries order →
  Setup order s (w, l) = (r, s', (w', l')) →
  ∃ d, l' = l ++ d ∧ Forall not_a_play d ∧
       (r = None → d = (λ n, EvSetup n None) <$> order.*1).
Proof.
  intros Hsp H.
  destruct (setups_ok_or_first_failure order (w, l))
    as [[w1 H1]|(pre & n & p & post & w1 & e & w2 & -> & H1 & H2)].
  - rewrite (Setup_ok s order _ _ H1) in H. inversion H; subst.
    pose proof (setups_ok_log order _ _ Hsp H1) as Hl. simpl in Hl.
    eexists. split; [exact Hl|]. split; [|done].
    apply Forall_fmap, Forall_forall. by intros.
  - rewrite (Setup_fail s pre n p post _ _ e _ H1 H2) in H.
    inversion H as [[Hr Hs Hw]]; subst r.
    apply Forall_app in Hsp as [Hpre Hrest].
    apply Forall_cons in Hrest as [[p0 Hp0] _]. simpl in Hp0. subst p.
    pose proof (clean_good_log pre w2 Hpre) as Hc. rewrite Hw in Hc.
    rewrite (spy_Setup_log n p0 w1 (Some e) w2 H2) in Hc.
    rewrite (setups_ok_log pre _ _ Hpre H1) in Hc. simpl in Hc.
    rewrite <- !app_assoc in Hc.
    eexists. split; [exact Hc|]. split; [|done].
    apply Forall_app. split; [apply Forall_fmap, Forall_forall; by intros|].
    apply Forall_cons. split; [done|].
    apply Forall_fmap, Forall_forall. by intros.
Qed.

Lemma pt_played_result ctx (tasks : list (play_task (W * list Event))) :
  omap (pt_played ctx) tasks
  = (λ ne, EvPlay ne.1 ctx ne.2) <$> omap pt_result tasks.
Proof.
  rewrite list_fmap_omap. apply list_omap_ext, Forall2_same_length_lookup.
  split; [done|]. intros i t t' Hi Hi'. simplify_eq. by destruct t.
Qed.

Lemma Play_spied_log s order sched ctx w l o w' l' :
  spied s → ranges s order → beenSetup s = true →
  Play order sched s ctx (w, l) = Some (o, (w', l')) →
  ∃ d res, l' = l ++ d ∧
           d ≡ₚ (λ ne, EvPlay ne.1 ctx ne.2) <$> res ∧ res.*1 = order.*1.
Proof.
  intros Hs Hr Hb H.
  destruct (Play_ready_no_panic s order ctx sched _ o _ Hr Hb H) as [r ->].
  apply Play_Some in H as (c & Hrun & Ho & Hw).
  apply play_outcome_Returned in Ho.
  destruct (play_run_ready s order ctx sched _ c Hr Hb Hrun)
    as [[-> ->]|(rest & -> & Hrest & Hinv)]; [done|].
  destruct (play_run_log s order ctx rest l _ c (spied_ranges s order Hs Hr)
              (play_inv_entered s order (w, l) Hr)
              (play_log_inv_entered s order ctx (w, l)) Hrest)
    as (d & Hlog & Hd).
  destruct (play_inv_returned order c r Hinv Ho) as (Hnames & Hdone & _).
  rewrite Hw in Hlog. simpl in Hlog.
  exists d, (omap pt_result (ps_tasks c)).
  split; [done|]. split; [by rewrite <- pt_played_result|].
  by rewrite pt_result_done.
Qed.

Lemma Clean_spied_log s order sched w l w' l' :
  spied s → ranges s order →
  Clean order sched s (w, l) = Some (w', l') →
  ∃ d, l' = l ++ d ∧ d ≡ₚ EvClean <$> order.*1.
Proof.
  intros Hs Hr H. apply Clean_Some in H as (c & Hrun & Hm & Hw).
  destruct (clean_run_init s order sched _ c Hr Hrun)
    as [[-> ->]|(rest & -> & Hrest & Hinv)]; [done|].
  destruct (clean_run_log s order rest l _ c (spied_ranges s order Hs Hr)
              (clean_inv_entered s order (w, l) Hr)
              (clean_log_inv_entered s order (w, l)) Hrest)
    as (d & Hlog & Hd).
  destruct (clean_inv_returned order c Hinv Hm) as [Hlen Hdone].
  rewrite ct_events_done in Hd by (by rewrite ?length_fmap).
  rewrite Hw in Hlog. by exists d.
Qed.
End SpiedLogs.

Section OnlyCalls.
Context {W : Type}.
Implicit Types (s : Stage W) (order : list (string * Player W)) (w : W).

(** X11: a call of [Play] on a ready stage calls nothing but [Play], once
    on every registered player, with the context it was given: no player's
    [Setup] or [Clean] is called. *)
Theorem Play_calls_only_Play s order sched ctx w o w' :
  ranges s order → beenSetup s = true →
  Play order sched s ctx w = Some (o, w') →
  ∃ res, Play_log order sched s ctx w ≡ₚ (λ ne, EvPlay ne.1 ctx ne.2) <$> res ∧
         res.*1 = order.*1 ∧
         ∀ n, setups n (Play_log order sched s ctx w) = [] ∧
              cleans n (Play_log order sched s ctx w) = [].
Proof.
  intros Hr Hb H.
  destruct (Play_spy s order sched ctx w o w' [] H) as [l' H'].
  destruct (Play_spied_log (spy_stage s) _ _ _ _ _ _ _ _ (spied_spy_stage s)
              (ranges_spy_stage s order Hr) Hb H') as (d & res & -> & Hd & Hn).
  assert (Play_log order sched s ctx w = d) as ->.
  { unfold Play_log. by rewrite H'. }
  rewrite spy_entry_fst in Hn.
  exists res. split; [done|]. split; [done|]. intros n. split.
  - apply Permutation_nil_r. unfold setups. rewrite Hd.
    by apply Permutation_nil_r, omap_fmap_none.
  - apply Permutation_nil_r. unfold cleans. rewrite Hd.
    by apply Permutation_nil_r, omap_fmap_none.
Qed.

(** X12: a call of [Clean] calls nothing but [Clean], once on every
    registered player: no player's [Setup] or [Play] is called. *)
Theorem Clean_calls_only_Clean s order sched w w' :
  ranges s order →
  Clean order sched s w = Some w' →
  Clean_log order sched s w ≡ₚ EvClean <$> order.*1.
Proof.
  intros Hr H.
  destruct (Clean_spy s order sched w w' [] Hr H) as [l' H'].
  destruct (Clean_spied_log (spy_stage s) _ _ _ _ _ _ (spied_spy_stage s)
              (ranges_spy_stage s order Hr) H') as (d & -> & Hd).
  unfold Clean_log. rewrite H'. simpl. by rewrite Hd, spy_entry_fst.
Qed.

(** X13: after a call of [Setup] that failed, a call of [Clean] still calls
    [Clean] on every registered player: the players that were set up before
    the failure are cleaned a second time, and the failing player and those
    never reached are cleaned without having been set up. *)
Theorem Clean_after_failed_Setup s order pre n p post w w1 e w2 order' sched w' :
  ranges s order → ranges s order' →
  order = pre ++ (n, p) :: post →
  setups_ok pre w = Some w1 →
  p_Setup p w1 = (Some e, w2) →
  Clean order' sched s (clean_good pre.*2 w2) = Some w' →
  let d := Setup_log order s w
           ++ Clean_log order' sched s (clean_good pre.*2 w2) in
  (∀ m, m ∈ pre.*1 → setups m d = [None] ∧ cleans m d = [(); ()]) ∧
  (setups n d = [Some e] ∧ cleans n d = [()]) ∧
  (∀ m, m ∈ post.*1 → setups m d = [] ∧ cleans m d = [()]).
Proof.
  intros Hr Hr' -> Hok Hp Hclean d.
  destruct (setups_ok_spy pre w w1 [] Hok) as [l1 Hok'].
  assert (p_Setup (spy n p) (w1, l1)
          = (Some e, (w2, l1 ++ [EvSetup n (Some e)]))) as Hp'.
  { simpl. by rewrite Hp. }
  destruct (Setup_first_failure_spied (spy_stage s)
              (spy_entry <$> pre ++ (n, p) :: post)
              (spy_entry <$> pre) n (spy n p) (spy_entry <$> post)
              (w, []) (w1, l1) e (w2, l1 ++ [EvSetup n (Some e)])
              (spied_spy_stage s) (ranges_spy_stage s _ Hr))
    as (w0 & d1 & Hsetup & Hpre & Hn & Hpost); [by rewrite fmap_app|done|done|].
  rewrite !spy_entry_fst in *.
  destruct (Clean_spy s order' sched _ w' [] Hr' Hclean) as [l' H'].
  destruct (Clean_spied_log (spy_stage s) _ _ _ _ _ _ (spied_spy_stage s)
              (ranges_spy_stage s order' Hr') H') as (d2 & -> & Hd2).
  rewrite spy_entry_fst in Hd2.
  assert (d = d1 ++ d2) as ->.
  { unfold d, Setup_log, Clean_log. by rewrite Hsetup, H'. }
  pose proof (ranges_NoDup s order' Hr') as Hnd'.
  assert (∀ m, setups m d2 = []) as Hs2.
  { intros m. apply Permutation_nil_r. unfold setups. rewrite Hd2.
    by apply Permutation_nil_r, omap_fmap_none. }
  assert (∀ m, m ∈ (pre ++ (n, p) :: post).*1 → cleans m d2 = [()]) as Hc2.
  { intros m Hm. apply Permutation_singleton_r.
    rewrite <- (decide_True (P := m ∈ order'.*1) [()] []).
    - rewrite <- (cleans_of_clean_events _ m Hnd'). unfold cleans. by rewrite Hd2.
    - apply (ranges_names s order' m Hr'), (ranges_names s _ m Hr), Hm. }
  rewrite fmap_app, fmap_cons in Hc2. simpl in Hc2.
  split; [|split].
  - intros m Hm. destruct (Hpre m Hm) as [H1 H2].
    rewrite setups_app, cleans_app, H1, H2, Hs2, Hc2; [done|].
    apply elem_of_app. by left.
  - destruct Hn as [H1 H2].
    rewrite setups_app, cleans_app, H1, H2, Hs2, Hc2; [done|].
    apply elem_of_app. right. by left.
  - intros m Hm. destruct (Hpost m Hm) as [H1 H2].
    rewrite setups_app, cleans_app, H1, H2, Hs2, Hc2; [done|].
    apply elem_of_app. right. by right.
Qed.
End OnlyCalls.

Section LifeCycleGuarantee.
Context {W : Type}.
Implicit Types (s : Stage (W * list Event)).
Implicit Types (order : list (string * Player (W * list Event))).
Implicit Types (w : W) (l d : list Event).
Implicit Types (h : list (call (W * list Event) * reply)).

Lemma setup_before_play_app_quiet l d :
  setup_before_play l → Forall not_a_play d → setup_before_play (l ++ d).
Proof.
  intros Hl Hd i n ctx e Hi. apply lookup_app_Some in Hi as [Hi|[_ Hi]].
  - destruct (Hl i n ctx e Hi) as (j & Hj & Hlj).
    exists j. split; [done|]. by apply lookup_app_l_Some.
  - apply list_elem_of_lookup_2 in Hi.
    by apply (proj1 (Forall_forall _ _) Hd) in Hi.
Qed.

Lemma setup_before_play_app_plays l d :
  setup_before_play l →
  (∀ n ctx e, EvPlay n ctx e ∈ d → EvSetup n None ∈ l) →
  setup_before_play (l ++ d).
Proof.
  intros Hl Hd i n ctx e Hi. apply lookup_app_Some in Hi as [Hi|[Hlen Hi]].
  - destruct (Hl i n ctx e Hi) as (j & Hj & Hlj).
    exists j. split; [done|]. by apply lookup_app_l_Some.
  - apply list_elem_of_lookup_2, Hd, list_elem_of_lookup in Hi as [j Hj].
    exists j. pose proof (lookup_lt_Some _ _ _ Hj).
    split; [lia|]. by apply lookup_app_l_Some.
Qed.

Lemma spied_Add s n (p0 : Player W) : spied s → spied (Add n (spy n p0) s).
Proof.
  intros Hs m q. unfold Add. simpl. intros Hm.
  apply lookup_insert_Some in Hm as [[<- <-]|[_ Hm]]; [by eexists|].
  by apply Hs.
Qed.

Lemma life_inv_step (y z : Stage (W * list Event) * (W * list Event)) c r :
  life_inv y →
  stage_call y c r z →
  (∀ n p, c = CallAdd n p → (∃ p0, p = spy n p0) ∧ beenSetup y.1 = false) →
  life_inv z.
Proof.
  intros (Hsp & Hl & Hb) Hc Hadd.
  inversion Hc as [s wl n p|s wl order err s' wl' Hr Hs
                  |s wl order sched ctx err wl' Hr Hp
                  |s wl order sched ctx wl' Hr Hp
                  |s wl order sched wl' Hr Hcl]; subst; simpl in *.
  - destruct (Hadd n p eq_refl) as [[p0 ->] Hf].
    split; [by apply spied_Add|]. split; [done|]. simpl. by rewrite Hf.
  - destruct wl as [w l], wl' as [w' l'].
    pose proof (Setup_players _ _ _ _ _ _ Hs) as Hpl.
    destruct (Setup_spied_log s order w l err s' w' l'
                (spied_ranges s order Hsp Hr) Hs) as (d & -> & Hd & Hnil).
    split; [|split]; simpl.
    + intros n p. rewrite Hpl. apply Hsp.
    + by apply setup_before_play_app_quiet.
    + intros Hb' n Hn. rewrite Hpl in Hn. apply elem_of_app.
      destruct err as [e|].
      * apply Setup_err_stage in Hs as ->. left. by apply Hb.
      * right. rewrite (Hnil eq_refl). apply (list_elem_of_fmap_2 (λ n, EvSetup n None)).
        by apply (ranges_names s order n Hr).
  - destruct wl as [w l], wl' as [w' l'].
    destruct (beenSetup s) eqn:Hbs.
    + destruct (Play_spied_log s order sched ctx w l _ w' l' Hsp Hr Hbs Hp)
        as (d & res & -> & Hd & Hres).
      split; [done|]. split; simpl.
      * apply setup_before_play_app_plays; [done|]. intros n c e Hn.
        rewrite Hd in Hn. apply list_elem_of_fmap in Hn as ([m e'] & Heq & Hm).
        simpl in Heq. simplify_eq. apply Hb; [done|].
        apply (ranges_names s order m Hr). rewrite <- Hres.
        by apply (list_elem_of_fmap_2 fst) in Hm.
      * intros _ n Hn. apply elem_of_app. left. by apply Hb.
    + by destruct (proj2 (Play_unready s order ctx (w, l) Hbs) _ _ _ Hp).
  - destruct (beenSetup s) eqn:Hbs.
    + by destruct (Play_ready_no_panic s order ctx sched _ _ _ Hr Hbs Hp).
    + destruct (proj2 (Play_unready s order ctx wl Hbs) _ _ _ Hp) as [_ ->].
      split; [done|]. split; [done|]. simpl. by rewrite Hbs.
  - destruct wl as [w l], wl' as [w' l'].
    destruct (Clean_spied_log s order sched w l w' l' Hsp Hr Hcl) as (d & -> & Hd).
    split; [done|]. split; simpl.
    + apply setup_before_play_app_quiet; [done|].
      apply Forall_forall. intros ev Hev. rewrite Hd in Hev.
      by apply list_elem_of_fmap in Hev as (m & -> & _).
    + intros Hb' n Hn. apply elem_of_app. left. by apply Hb.
Qed.

Lemma adds_before_setup_snoc h c r :
  adds_before_setup (h ++ [(c, r)]) →
  adds_before_setup h ∧ (∀ n p, c = CallAdd n p → ¬ setup_succeeded h).
Proof.
  intros H. split.
  - intros h1 n p r' h2 ->. apply (H h1 n p r' (h2 ++ [(c, r)])).
    by rewrite <- app_assoc.
  - intros n p ->. by apply (H h n p r []).
Qed.

(** X14: the guarantee of the [Player] interface.  On a stage built with
    [NewStage], as long as no player is added after a call of [Setup] has
    returned [nil], every call of [Play] on a player comes after a call of
    [Setup] on the player registered under that name that returned [nil]. *)
Theorem Play_only_after_Setup (w0 : W) h s w l :
  history (NewStage, (w0, [])) h (s, (w, l)) →
  adds_spies h →
  adds_before_setup h →
  setup_before_play l.
Proof.
  intros Hh Hsp Hadd.
  enough (life_inv (s, (w, l))) as (_ & H & _) by done.
  remember (@NewStage (W * list Event), (w0, @nil Event)) as x eqn:Hx.
  remember (s, (w, l)) as y eqn:Hy. clear Hy.
  induction Hh as [x|x h y c r z Hh IH Hc].
  - subst x. split; [|split]; simpl.
    + intros n p Hn. unfold NewStage in Hn. simpl in Hn.
      by rewrite lookup_empty in Hn.
    + intros i n ctx e Hi. by rewrite lookup_nil in Hi.
    + done.
  - apply Forall_app in Hsp as [Hsp Hc'].
    apply Forall_cons in Hc' as [Hc' _].
    apply adds_before_setup_snoc in Hadd as [Hadd Hlast].
    apply (life_inv_step y z c r); [by apply IH|done|].
    intros n p ->. split; [done|].
    destruct (beenSetup y.1) eqn:Hb; [|done].
    apply (history_beenSetup _ _ _ Hh) in Hb as [Hb|Hb]; [by subst x|].
    by destruct (Hlast n p eq_refl).
Qed.
End LifeCycleGuarantee.

(** A player added after a call of [Setup] has returned [nil] is played
    without having been set up: [Add] leaves [beenSetup] as it is. *)
Example Play_without_Setup_after_late_Add :
  let h := [(CallSetup, RErr None); (CallAdd "a" (spy "a" quiet), RUnit);
            (CallPlay 7, RErr None)] in
  history (NewStage, (tt, [])) h
    (Add "a" (spy "a" quiet) (ready NewStage), (tt, [EvPlay "a" 7 None])) ∧
  adds_spies h ∧
  ¬ setup_before_play [EvPlay "a" 7 None].
Proof.
  split; [|split].
  - eapply history_cons.
    { apply (sc_Setup _ _ []); [apply ranges_NewStage_nil|reflexivity]. }
    eapply history_cons; [apply sc_Add|].
    eapply history_cons; [|apply history_nil].
    apply (sc_Play _ _ [("a", spy "a" quiet)]
             [AMain; AMain; AMain; ATask 0; ATask 0; ATask 0; AMain; AMain]);
      [|reflexivity].
    apply ranges_Add; [done|]. apply (ranges_ready NewStage), ranges_NewStage_nil.
  - repeat constructor. by exists quiet.
  - intros H. destruct (H 0 "a" 7 None eq_refl) as (j & Hj & _). lia.
Qed.

Section Messages.
Variable visit : list string → list (string * string) → list (string * string).
Hypothesis Hvisit : visits_all visit.

Lemma append_cons x (a b : string) : String x a +:+ b = String x (a +:+ b).
Proof. reflexivity. Qed.

Lemma append_assoc (a b c : string) : (a +:+ b) +:+ c = a +:+ b +:+ c.
Proof.
  induction a as [|x a IH]; [done|]. rewrite !append_cons. by f_equal.
Qed.

Lemma append_nil_r (a : string) : a +:+ "" = a.
Proof. induction a as [|x a IH]; [done|]. rewrite append_cons. by f_equal. Qed.

Lemma concat_text_app l1 l2 :
  concat_text (l1 ++ l2) = concat_text l1 +:+ concat_text l2.
Proof.
  induction l1 as [|a l1 IH]; [done|].
  simpl. by rewrite IH, append_assoc.
Qed.

Lemma foldl_entry_text (l : list (string * string)) : ∀ k,
  foldl (λ k ne, k +:+ " |" +:+ ne.1 +:+ ": " +:+ ne.2 +:+ "|") k l
  = k +:+ concat_text (entry_text <$> l).
Proof.
  induction l as [|ne l IH]; intros k; simpl.
  - by rewrite append_nil_r.
  - rewrite IH. unfold entry_text at 2. by rewrite !append_assoc.
Qed.

Lemma rendered_entries path (m : gmap string error) name err :
  m !! name = Some err →
  (name, Error visit (path ++ [name]) err)
  ∈ map_to_list (map_imap (λ name err, Some (Error visit (path ++ [name]) err)) m).
Proof.
  intros Hm. apply elem_of_map_to_list. by rewrite map_lookup_imap, Hm.
Qed.

Lemma map_to_list_imap_Some {A B} (g : string → A → B) (m : gmap string A) :
  map_to_list (map_imap (λ k x, Some (g k x)) m)
  ≡ₚ (λ kx, (kx.1, g kx.1 kx.2)) <$> map_to_list m.
Proof.
  induction m as [|i x m Hi IH] using map_ind.
  - by rewrite map_imap_empty, !map_to_list_empty.
  - rewrite (map_imap_insert_Some _ _ _ _ (g i x)) by done.
    rewrite !map_to_list_insert; [|done|by rewrite map_lookup_imap, Hi].
    rewrite fmap_cons. simpl. by rewrite IH.
Qed.

(** X15: the message of an [ErrPlay] is [ErrPlay:] followed by one text
    [ |name: message|] for every entry of its map, in some order, where
    [message] is the message of the entry's error: whatever the order of
    the iteration, every failed player is mentioned once with its error. *)
Theorem ErrPlay_Error_entries path (m : gmap string error) :
  ∃ texts,
    Error visit path (ErrPlay m) = "ErrPlay:" +:+ concat_text texts ∧
    texts ≡ₚ (λ ne, " |" +:+ ne.1 +:+ ": " +:+ Error visit (path ++ [ne.1]) ne.2 +:+ "|")
             <$> map_to_list m.
Proof.
  eexists. split.
  - simpl. apply foldl_entry_text.
  - rewrite (Hvisit path), map_to_list_imap_Some, <- list_fmap_compose.
    done.
Qed.

(** X16: the message of the error that [Setup] returns is [ErrSetup: ], the
    name of the registered player whose [Setup] failed, [: ] and the message
    of the error that the one call of [Setup] made on this player
    returned. *)
Theorem Setup_error_message {W} (s : Stage W) order w err s' w' path :
  ranges s order →
  Setup order s w = (Some err, s', w') →
  ∃ n e,
    is_Some (players s !! n) ∧
    setups n (Setup_log order s w) = [Some e] ∧
    Error visit path err
    = "ErrSetup: " +:+ n +:+ ": " +:+ Error visit (path ++ [n]) e.
Proof.
  intros Hr H.
  destruct (setups_ok_or_first_failure order w)
    as [[w1 H1]|(pre & n & p & post & w1 & e & w2 & -> & H1 & H2)].
  - by rewrite (Setup_ok s order w w1 H1) in H.
  - rewrite (Setup_fail s pre n p post w w1 e w2 H1 H2) in H.
    inversion H; subst. exists n, e. split; [|split; [|done]].
    + exists p. apply (ranges_elem_of s' _ n p Hr), elem_of_app. right. by left.
    + by apply (Setup_fail_setups s' pre n p post w w1 e w2).
Qed.

Lemma Error_ErrPlay_mentions path (m : gmap string error) name err :
  m !! name = Some err →
  ∃ pre post,
    Error visit path (ErrPlay m)
    = "ErrPlay:" +:+ pre +:+ " |" +:+ name +:+ ": "
      +:+ Error visit (path ++ [name]) err +:+ "|" +:+ post.
Proof.
  intros Hm.
  pose proof (rendered_entries path m name err Hm) as Hin.
  rewrite <- (Hvisit path) in Hin.
  apply list_elem_of_split in Hin as (l1 & l2 & Hl).
  exists (concat_text (entry_text <$> l1)), (concat_text (entry_text <$> l2)).
  simpl. rewrite foldl_entry_text, Hl, fmap_app, concat_text_app, fmap_cons.
  simpl. unfold entry_text at 2. simpl. by rewrite !append_assoc.
Qed.

(** X17: the message of the error that [Play] returns mentions every player
    whose [Play] failed: it starts with [ErrPlay:] and contains the text
    [ |name: message|] for the player registered as [name] whose [Play]
    returned an error with this message. *)
Theorem Play_error_message {W} (s : Stage W) order sched ctx w err w' path n e :
  ranges s order → beenSetup s = true →
  Play order sched s ctx w = Some (Returned (Some err), w') →
  plays n (Play_log order sched s ctx w) = [(ctx, Some e)] →
  ∃ pre post,
    Error visit path err
    = "ErrPlay:" +:+ pre +:+ " |" +:+ n +:+ ": "
      +:+ Error visit (path ++ [n]) e +:+ "|" +:+ post.
Proof.
  intros Hr Hb H Hn.
  destruct (Play_spy s order sched ctx w _ w' [] H) as [l' H'].
  destruct (proj2 (Play_reports_failures_spied (spy_stage s) (spy_entry <$> order)
                     ctx (w, []) (spied_spy_stage s) (ranges_spy_stage s order Hr) Hb)
              sched _ (w', l') H')
    as (r & d & Hret & Hlog & _ & _ & _ & Hnil & Hmap).
  simpl in Hlog. subst l'. inversion Hret; subst r.
  rewrite (Play_log_spy order sched s ctx w _ w' d H') in Hn.
  destruct Hmap as (m & Hm & _ & Hlook & _).
  { intros HK. by apply Hnil in HK. }
  inversion Hm; subst err.
  by apply Error_ErrPlay_mentions, Hlook.
Qed.
End Messages.

Lemma Setup_error_is_ErrSetup_witness :
  ∃ pre n p post e w1 w2,
    order_abc = pre ++ (n, p) :: post ∧
    setups_ok pre tt = Some w1 ∧
    p_Setup p w1 = (Some e, w2) ∧
    ErrSetup "b" (ErrOther "Y") = ErrSetup n e ∧
    players stage_abc !! n = Some p ∧
    setups n (Setup_log order_abc stage_abc tt) = [Some e] ∧
    stage_abc = stage_abc ∧ tt = clean_good pre.*2 w2.
Proof.
  apply (Setup_error_is_ErrSetup stage_abc order_abc tt
           (ErrSetup "b" (ErrOther "Y")) stage_abc tt);
    [apply ranges_stage_abc|reflexivity].
Defined.

Lemma Setup_log_success_witness :
  Setup_log order_ab stage_ab tt = [EvSetup "a" None; EvSetup "b" None].
Proof.
  apply (Setup_log_success stage_ab order_ab tt tt). reflexivity.
Defined.

Lemma Setup_log_failure_witness :
  Setup_log order_abc stage_abc tt
  = [EvSetup "a" None; EvSetup "b" (Some (ErrOther "Y")); EvClean "a"].
Proof.
  apply (Setup_log_failure stage_abc [("a", quiet)] "b" fails_setup
           [("c", quiet)] tt tt (ErrOther "Y") tt); reflexivity.
Defined.

Lemma Play_send_never_blocks_witness :
  ∃ c, play_run (ready stage_ab) order_ab 7 [AMain; AMain; AMain; ATask 1]
         (play_init tt) = Some c ∧
       ps_closed c = false ∧ length (ps_echan c) < ps_cap c ∧
       ∃ c', play_step (ready stage_ab) order_ab 7 (ATask 1) c = Some c' ∧
             ps_tasks c' = <[1 := PtDefer "b" (Some (ErrOther "X"))]> (ps_tasks c) ∧
             ps_echan c' = ps_echan c ++ [("b", ErrOther "X")].
Proof.
  eexists. split; [reflexivity|].
  apply (Play_send_never_blocks (ready stage_ab) order_ab 7
           [AMain; AMain; AMain; ATask 1] tt _ 1 "b" (ErrOther "X"));
    [apply ranges_ready, ranges_stage_ab|reflexivity..].
Defined.


Lemma Play_blocks_only_on_players_witness :
  ∃ c, play_run (ready stage_ab) order_ab 7
         [AMain; AMain; AMain; AMain; ATask 1] (play_init tt) = Some c ∧
       (∀ i n e, ps_tasks c !! i = Some (PtGot n e) →
                 ∃ c', play_step (ready stage_ab) order_ab 7 (ATask i) c = Some c' ∧
                       ps_tasks c' = <[i := PtDefer n e]> (ps_tasks c)) ∧
       (∀ i n e, ps_tasks c !! i = Some (PtDefer n e) →
                 ∃ c', play_step (ready stage_ab) order_ab 7 (ATask i) c = Some c' ∧
                       ps_tasks c' = <[i := PtDone n e]> (ps_tasks c)) ∧
       ((∃ r, ps_main c = PmReturned r) ∨
        (∃ c', play_step (ready stage_ab) order_ab 7 AMain c = Some c') ∨
        (ps_main c = PmWait ∧
         ∃ i t, ps_tasks c !! i = Some t ∧ ∀ n e, t ≠ PtDone n e)).
Proof.
  eexists. split; [reflexivity|].
  apply (Play_blocks_only_on_players (ready stage_ab) order_ab 7
           [AMain; AMain; AMain; AMain; ATask 1] tt);
    [apply ranges_ready, ranges_stage_ab|reflexivity..].
Defined.

Lemma Clean_blocks_only_on_players_witness :
  ∃ c, clean_run stage_ab order_ab [AMain; AMain; AMain; AMain; ATask 1]
         (clean_init tt) = Some c ∧
       Forall (λ t, t ≠ CtPanic) (cs_tasks c) ∧
       (∀ i, cs_tasks c !! i = Some CtDefer →
             ∃ c', clean_step stage_ab order_ab (ATask i) c = Some c' ∧
                   cs_tasks c' = <[i := CtDone]> (cs_tasks c)) ∧
       (cs_main c = CmReturned ∨
        (∃ c', clean_step stage_ab order_ab AMain c = Some c') ∨
        (cs_main c = CmWait ∧ ∃ i t, cs_tasks c !! i = Some t ∧ t ≠ CtDone)).
Proof.
  eexists. split; [reflexivity|].
  apply (Clean_blocks_only_on_players stage_ab order_ab
           [AMain; AMain; AMain; AMain; ATask 1] tt);
    [apply ranges_stage_ab|reflexivity].
Defined.

Lemma Clean_of_SimplePlayers_witness :
  let sp : SimplePlayer nat := λ _ w, (None, S w) in
  let s := Add "a" (SimplePlayer_as_Player sp) NewStage in
  Clean [("a", SimplePlayer_as_Player sp)]
    [AMain; AMain; ATask 0; ATask 0; AMain; AMain] s 5 = Some 5 ∧ 5 = 5.
Proof.
  intros sp s. split; [reflexivity|].
  apply (Clean_of_SimplePlayers s [("a", SimplePlayer_as_Player sp)]
           [AMain; AMain; ATask 0; ATask 0; AMain; AMain] 5 5).
  - apply ranges_Add; [done|apply ranges_NewStage_nil].
  - intros n p Hn. unfold s, Add, NewStage in Hn. simpl in Hn.
    apply lookup_insert_Some in Hn as [[_ <-]|[_ Hn]].
    + by exists sp.
    + by rewrite lookup_empty in Hn.
  - reflexivity.
Defined.

Lemma Play_calls_only_Play_witness :
  let sched := [AMain; AMain; AMain; ATask 1; ATask 0; ATask 1; ATask 0; AMain;
                ATask 0; ATask 1; AMain; AMain] in
  ∃ res,
    Play_log order_ab sched (ready stage_ab) 7 tt
    ≡ₚ (λ ne, EvPlay ne.1 7 ne.2) <$> res ∧
    res.*1 = order_ab.*1 ∧
    ∀ n, setups n (Play_log order_ab sched (ready stage_ab) 7 tt) = [] ∧
         cleans n (Play_log order_ab sched (ready stage_ab) 7 tt) = [].
Proof.
  intros sched.
  apply (Play_calls_only_Play (ready stage_ab) order_ab sched 7 tt
           (Returned (Some (ErrPlay (<["b" := ErrOther "X"]> ∅)))) tt);
    [apply ranges_ready, ranges_stage_ab|reflexivity..].
Defined.

Lemma Clean_calls_only_Clean_witness :
  Clean_log order_ab
    [AMain; AMain; AMain; ATask 1; AMain; ATask 0; ATask 0; ATask 1; AMain]
    stage_ab tt
  ≡ₚ EvClean <$> order_ab.*1.
Proof.
  apply (Clean_calls_only_Clean stage_ab order_ab _ tt tt);
    [apply ranges_stage_ab|reflexivity].
Defined.

Lemma Clean_after_failed_Setup_witness :
  let sched := [AMain; AMain; AMain; AMain; AMain; ATask 0; ATask 0; ATask 1;
                ATask 1; ATask 2; ATask 2; AMain] in
  let d := Setup_log order_abc stage_abc tt
           ++ Clean_log order_abc sched stage_abc
                (clean_good [("a", quiet)].*2 tt) in
  (∀ m, m ∈ [("a", quiet)].*1 → setups m d = [None] ∧ cleans m d = [(); ()]) ∧
  (setups "b" d = [Some (ErrOther "Y")] ∧ cleans "b" d = [()]) ∧
  (∀ m, m ∈ [("c", quiet)].*1 → setups m d = [] ∧ cleans m d = [()]).
Proof.
  intros sched.
  apply (Clean_after_failed_Setup stage_abc order_abc [("a", quiet)] "b"
           fails_setup [("c", quiet)] tt tt (ErrOther "Y") tt order_abc sched tt);
    [apply ranges_stage_abc|apply ranges_stage_abc|reflexivity..].
Defined.

Lemma Play_only_after_Setup_witness :
  setup_before_play [EvSetup "a" None; EvPlay "a" 7 None].
Proof.
  apply (Play_only_after_Setup tt
           [(CallAdd "a" (spy "a" quiet), RUnit); (CallSetup, RErr None);
            (CallPlay 7, RErr None)]
           (ready (Add "a" (spy "a" quiet) NewStage)) tt).
  - eapply history_cons; [apply sc_Add|].
    eapply history_cons.
    { apply (sc_Setup _ _ [("a", spy "a" quiet)]);
        [apply ranges_Add; [done|apply ranges_NewStage_nil]|reflexivity]. }
    eapply history_cons; [|apply history_nil].
    apply (sc_Play _ _ [("a", spy "a" quiet)]
             [AMain; AMain; AMain; ATask 0; ATask 0; ATask 0; AMain; AMain]);
      [apply ranges_ready, ranges_Add; [done|apply ranges_NewStage_nil]
      |reflexivity].
  - repeat constructor. by exists quiet.
  - intros h1 n p r h2 Heq Hs.
    destruct h1 as [|x h1]; [by apply Exists_nil in Hs|].
    destruct h1 as [|y h1]; [done|].
    destruct h1 as [|z h1]; [done|].
    destruct h1; done.
Defined.

Lemma ErrPlay_Error_entries_witness :
  ∃ texts,
    Error (λ _ l, l) [] (ErrPlay (<["b" := ErrOther "X"]> ∅))
    = "ErrPlay:" +:+ concat_text texts ∧
    texts ≡ₚ (λ ne, " |" +:+ ne.1 +:+ ": " +:+ Error (λ _ l, l) ([] ++ [ne.1]) ne.2 +:+ "|")
             <$> map_to_list (<["b" := ErrOther "X"]> ∅).
Proof.
  apply (ErrPlay_Error_entries (λ _ l, l)). intros path l. reflexivity.
Defined.

Lemma Setup_error_message_witness :
  ∃ n e,
    is_Some (players stage_abc !! n) ∧
    setups n (Setup_log order_abc stage_abc tt) = [Some e] ∧
    Error (λ _ l, l) [] (ErrSetup "b" (ErrOther "Y"))
    = "ErrSetup: " +:+ n +:+ ": " +:+ Error (λ _ l, l) ([] ++ [n]) e.
Proof.
  apply (Setup_error_message (λ _ l, l) stage_abc order_abc tt
           (ErrSetup "b" (ErrOther "Y")) stage_abc tt []);
    [apply ranges_stage_abc|reflexivity].
Defined.

Lemma Play_error_message_witness :
  ∃ pre post,
    Error (λ _ l, l) [] (ErrPlay (<["b" := ErrOther "X"]> ∅))
    = "ErrPlay:" +:+ pre +:+ " |" +:+ "b" +:+ ": "
      +:+ Error (λ _ l, l) ([] ++ ["b"]) (ErrOther "X") +:+ "|" +:+ post.
Proof.
  apply (Play_error_message (λ _ l, l) (λ path l, reflexivity l)
           (ready stage_ab) order_ab
           [AMain; AMain; AMain; ATask 1; ATask 0; ATask 1; ATask 0; AMain;
            ATask 0; ATask 1; AMain; AMain] 7 tt _ tt);
    [apply ranges_ready, ranges_stage_ab|reflexivity..].
Defined.
